(** * The CSS selector builder of [05-objects-tasks.js]

    The builder is one object literal, [cssSelectorBuilder], whose methods
    create their result with [Object.create(cssSelectorBuilder)]: every
    builder handed out is a fresh object whose prototype is the one shared
    root object.  A property read on a builder finds the builder's own
    property or else the root's; a property write always lands on the object
    written to.  One method, [element], also writes to its receiver.

    The development models that store explicitly: a heap holding the root
    object and the objects allocated so far, references into it, and the
    methods as computations in a state-and-exception monad. *)

From stdpp Require Import base numbers option list strings pretty sorting.
From Stdlib Require Import Ascii.

Local Open Scope string_scope.
Local Open Scope list_scope.
Local Open Scope Z_scope.

(** ** Objects, references and the heap *)

(** A reference denotes the root object [cssSelectorBuilder] or the [n]-th
    object allocated by [Object.create]. *)
Inductive ref : Type :=
  | Root
  | Loc (n : nat).

(** The own properties of an object made by [Object.create(cssSelectorBuilder)].
    [None] is an absent own property: a read of it goes on to the prototype.
    The numbers are JavaScript numbers; the code only ever stores the small
    integers 1 to 6 and a counter plus one, so [Z] holds them exactly. *)
Record builder_obj : Type := BuilderObj {
  resultString : option string;
  elementOrder : option Z;
  idOrder : option Z;
  pseudoOrder : option Z;
  order : option Z
}.

(** The data properties of the object literal.  The first four are written in
    the literal and never deleted; [order] is not in the literal, so it is
    [undefined] ([None]) until some method assigns it. *)
Record root_obj : Type := RootObj {
  root_resultString : string;
  root_elementOrder : Z;
  root_idOrder : Z;
  root_pseudoOrder : Z;
  root_order : option Z
}.

Record heap : Type := Heap {
  root : root_obj;
  objs : list builder_obj
}.

(** [Object.create(cssSelectorBuilder)] yields an object without own
    properties. *)
Definition empty_obj : builder_obj := BuilderObj None None None None None.

(** The object literal as written: [resultString: ''], the three counters
    [0], no [order]. *)
Definition cssSelectorBuilder : root_obj := RootObj "" 0 0 0 None.

Definition init_heap : heap := Heap cssSelectorBuilder [].

(** The two message properties of the literal; no method assigns them, so
    [this.twiceTimeError] and [this.orderError] always read these. *)
Definition twiceTimeError : string :=
  "Element, id and pseudo-element should not occur more then one time inside the selector".

Definition orderError : string :=
  "Selector parts should be arranged in the following order: element, id, class, attribute, pseudo-class, pseudo-element".

Definition valid_ref (h : heap) (r : ref) : bool :=
  match r with
  | Root => true
  | Loc n => bool_decide (n < length (objs h))%nat
  end.

(** Own properties of the object at [Loc n].  A client only ever holds
    references to objects that exist ([valid_ref]); the default is there to
    keep the function total and is not reached from such references. *)
Definition own (h : heap) (n : nat) : builder_obj :=
  default empty_obj (objs h !! n).

(** *** Property reads: own property first, then the prototype (the root) *)

Definition get_resultString (h : heap) (this : ref) : string :=
  match this with
  | Root => root_resultString (root h)
  | Loc n => default (root_resultString (root h)) (resultString (own h n))
  end.

Definition get_elementOrder (h : heap) (this : ref) : Z :=
  match this with
  | Root => root_elementOrder (root h)
  | Loc n => default (root_elementOrder (root h)) (elementOrder (own h n))
  end.

Definition get_idOrder (h : heap) (this : ref) : Z :=
  match this with
  | Root => root_idOrder (root h)
  | Loc n => default (root_idOrder (root h)) (idOrder (own h n))
  end.

Definition get_pseudoOrder (h : heap) (this : ref) : Z :=
  match this with
  | Root => root_pseudoOrder (root h)
  | Loc n => default (root_pseudoOrder (root h)) (pseudoOrder (own h n))
  end.

(** [this.order] may be [undefined]: neither the object nor the root has it. *)
Definition get_order (h : heap) (this : ref) : option Z :=
  match this with
  | Root => root_order (root h)
  | Loc n =>
      match order (own h n) with
      | Some k => Some k
      | None => root_order (root h)
      end
  end.

(** *** Property writes: always on the object itself *)

Definition with_resultString (s : string) (o : builder_obj) : builder_obj :=
  BuilderObj (Some s) (elementOrder o) (idOrder o) (pseudoOrder o) (order o).
Definition with_elementOrder (k : Z) (o : builder_obj) : builder_obj :=
  BuilderObj (resultString o) (Some k) (idOrder o) (pseudoOrder o) (order o).
Definition with_idOrder (k : Z) (o : builder_obj) : builder_obj :=
  BuilderObj (resultString o) (elementOrder o) (Some k) (pseudoOrder o) (order o).
Definition with_pseudoOrder (k : Z) (o : builder_obj) : builder_obj :=
  BuilderObj (resultString o) (elementOrder o) (idOrder o) (Some k) (order o).
Definition with_order (k : Z) (o : builder_obj) : builder_obj :=
  BuilderObj (resultString o) (elementOrder o) (idOrder o) (pseudoOrder o) (Some k).

Definition root_with_resultString (s : string) (o : root_obj) : root_obj :=
  RootObj s (root_elementOrder o) (root_idOrder o) (root_pseudoOrder o) (root_order o).
Definition root_with_elementOrder (k : Z) (o : root_obj) : root_obj :=
  RootObj (root_resultString o) k (root_idOrder o) (root_pseudoOrder o) (root_order o).
Definition root_with_idOrder (k : Z) (o : root_obj) : root_obj :=
  RootObj (root_resultString o) (root_elementOrder o) k (root_pseudoOrder o) (root_order o).
Definition root_with_pseudoOrder (k : Z) (o : root_obj) : root_obj :=
  RootObj (root_resultString o) (root_elementOrder o) (root_idOrder o) k (root_order o).
Definition root_with_order (k : Z) (o : root_obj) : root_obj :=
  RootObj (root_resultString o) (root_elementOrder o) (root_idOrder o)
          (root_pseudoOrder o) (Some k).

Definition update (this : ref) (fb : builder_obj → builder_obj)
    (fr : root_obj → root_obj) (h : heap) : heap :=
  match this with
  | Root => Heap (fr (root h)) (objs h)
  | Loc n => Heap (root h) (alter fb n (objs h))
  end.

Definition set_resultString (this : ref) (s : string) : heap → heap :=
  update this (with_resultString s) (root_with_resultString s).
Definition set_elementOrder (this : ref) (k : Z) : heap → heap :=
  update this (with_elementOrder k) (root_with_elementOrder k).
Definition set_idOrder (this : ref) (k : Z) : heap → heap :=
  update this (with_idOrder k) (root_with_idOrder k).
Definition set_pseudoOrder (this : ref) (k : Z) : heap → heap :=
  update this (with_pseudoOrder k) (root_with_pseudoOrder k).
Definition set_order (this : ref) (k : Z) : heap → heap :=
  update this (with_order k) (root_with_order k).

(** ** The monad of the methods: a heap threaded through, and [throw] *)

Inductive error : Type :=
  | Error (message : string).

Definition M (A : Type) : Type := heap → heap * (error + A).

#[global] Instance M_ret : MRet M := λ A a h, (h, inr a).

(** An exception leaves the heap as it is at the [throw]; the rest of the
    method body does not run. *)
#[global] Instance M_bind : MBind M := λ A B f m h,
  match m h with
  | (h', inr a) => f a h'
  | (h', inl e) => (h', inl e)
  end.

Definition throw {A : Type} (e : error) : M A := λ h, (h, inl e).

Definition read {A : Type} (f : heap → A) : M A := λ h, (h, inr (f h)).

Definition write (f : heap → heap) : M unit := λ h, (f h, inr tt).

(** [Object.create(cssSelectorBuilder)]: a new object, no own properties,
    at the next free location. *)
Definition alloc (o : builder_obj) (h : heap) : heap :=
  Heap (root h) (objs h ++ [o]).

Definition Object_create : M ref := λ h,
  (alloc empty_obj h, inr (Loc (length (objs h)))).

(** [a > b] of JavaScript when [a] may be [undefined]: [undefined > n] is
    [false]. *)
Definition js_gt (a : option Z) (b : Z) : bool :=
  match a with
  | Some k => k >? b
  | None => false
  end.

(** ** The methods *)

Definition checkQueueCorrectness (this : ref) (num : Z) : M unit :=
  o ← read (λ h, get_order h this);
  if js_gt o num then throw (Error orderError) else mret tt.

Definition element (this : ref) (value : string) : M ref :=
  checkQueueCorrectness this 1;;
  builder ← Object_create;
  n ← read (λ h, get_elementOrder h this);
  write (set_elementOrder builder (n + 1));;
  m ← read (λ h, get_elementOrder h builder);
  if m >? 1 then throw (Error twiceTimeError) else
  write (set_order this 1);;
  old ← read (λ h, get_resultString h builder);
  s ← read (λ h, get_resultString h this);
  write (set_resultString builder (old +:+ (s +:+ value)));;
  mret builder.

Definition id (this : ref) (value : string) : M ref :=
  checkQueueCorrectness this 2;;
  builder ← Object_create;
  n ← read (λ h, get_idOrder h this);
  write (set_idOrder builder (n + 1));;
  write (set_order builder 2);;
  m ← read (λ h, get_idOrder h builder);
  if m >? 1 then throw (Error twiceTimeError) else
  s ← read (λ h, get_resultString h this);
  write (set_resultString builder (s +:+ "#" +:+ value));;
  mret builder.

Definition class (this : ref) (value : string) : M ref :=
  checkQueueCorrectness this 3;;
  builder ← Object_create;
  write (set_order builder 3);;
  s ← read (λ h, get_resultString h this);
  write (set_resultString builder (s +:+ "." +:+ value));;
  mret builder.

Definition attr (this : ref) (value : string) : M ref :=
  checkQueueCorrectness this 4;;
  builder ← Object_create;
  write (set_order builder 4);;
  s ← read (λ h, get_resultString h this);
  write (set_resultString builder (s +:+ "[" +:+ value +:+ "]"));;
  mret builder.

Definition pseudoClass (this : ref) (value : string) : M ref :=
  checkQueueCorrectness this 5;;
  builder ← Object_create;
  write (set_order builder 5);;
  s ← read (λ h, get_resultString h this);
  write (set_resultString builder (s +:+ ":" +:+ value));;
  mret builder.

Definition pseudoElement (this : ref) (value : string) : M ref :=
  checkQueueCorrectness this 6;;
  builder ← Object_create;
  n ← read (λ h, get_pseudoOrder h this);
  write (set_pseudoOrder builder (n + 1));;
  write (set_order builder 6);;
  m ← read (λ h, get_pseudoOrder h builder);
  if m >? 1 then throw (Error twiceTimeError) else
  s ← read (λ h, get_resultString h this);
  write (set_resultString builder (s +:+ "::" +:+ value));;
  mret builder.

Definition stringify (this : ref) : M string :=
  read (λ h, get_resultString h this).

Definition combine (selector1 : ref) (combinator : string) (selector2 : ref)
    : M ref :=
  builder ← Object_create;
  s1 ← read (λ h, get_resultString h selector1);
  s2 ← read (λ h, get_resultString h selector2);
  write (set_resultString builder (s1 +:+ " " +:+ combinator +:+ " " +:+ s2));;
  mret builder.

(** ** Chains of calls *)

(** The six part-adding methods, and the rank [checkQueueCorrectness] is
    called with in each. *)
Inductive kind : Type :=
  | KElement | KId | KClass | KAttr | KPseudoClass | KPseudoElement.

#[global] Instance kind_eq_dec : EqDecision kind.
Proof. solve_decision. Defined.

Definition rank (k : kind) : Z :=
  match k with
  | KElement => 1
  | KId => 2
  | KClass => 3
  | KAttr => 4
  | KPseudoClass => 5
  | KPseudoElement => 6
  end.

Definition call (k : kind) : ref → string → M ref :=
  match k with
  | KElement => element
  | KId => id
  | KClass => class
  | KAttr => attr
  | KPseudoClass => pseudoClass
  | KPseudoElement => pseudoElement
  end.

Definition part : Type := kind * string.

(** [this.k1(v1).k2(v2)...]: each call is made on the builder the previous
    one returned; the first exception ends the chain. *)
Fixpoint run_chain (this : ref) (ps : list part) : M ref :=
  match ps with
  | [] => mret this
  | (k, v) :: ps' => b ← call k this v; run_chain b ps'
  end.

(** [cssSelectorBuilder.k1(v1)...kn(vn).stringify()] *)
Definition chain_stringify (ps : list part) : M string :=
  b ← run_chain Root ps; stringify b.

(** What a run yields to the caller: the value returned or the error thrown. *)
Definition outcome {A : Type} (m : M A) (h : heap) : error + A := snd (m h).

(** *** Client programs

    A client makes calls one after another on objects of the heap.  A call
    that throws is caught by the client, which goes on; what the call did to
    the heap before throwing stays.  A command may name any object allocated
    so far, also one that a throwing call left behind and no JavaScript
    client can reach: the heaps [exec_prog] produces include every heap a
    real client can produce. *)
Inductive cmd : Type :=
  | Call (this : ref) (k : kind) (value : string)
  | Combine (selector1 : ref) (combinator : string) (selector2 : ref).

Definition exec_cmd (c : cmd) (h : heap) : option heap :=
  match c with
  | Call this k v =>
      if valid_ref h this then Some (fst (call k this v h)) else None
  | Combine s1 t s2 =>
      if valid_ref h s1 && valid_ref h s2
      then Some (fst (combine s1 t s2 h)) else None
  end.

Fixpoint exec_prog (p : list cmd) (h : heap) : option heap :=
  match p with
  | [] => Some h
  | c :: p' => h' ← exec_cmd c h; exec_prog p' h'
  end.

(** ** The text a chain denotes, fragment by fragment *)

Definition fragment (p : part) : string :=
  match p with
  | (KElement, v) => v
  | (KId, v) => "#" +:+ v
  | (KClass, v) => "." +:+ v
  | (KAttr, v) => "[" +:+ v +:+ "]"
  | (KPseudoClass, v) => ":" +:+ v
  | (KPseudoElement, v) => "::" +:+ v
  end.

Fixpoint render (ps : list part) : string :=
  match ps with
  | [] => ""
  | p :: ps' => fragment p +:+ render ps'
  end.

(** The shape (element?, id?, class*, attr*, pseudoClass*, pseudoElement?). *)
Definition opt_part (k : kind) (o : option string) : list part :=
  match o with
  | Some v => [(k, v)]
  | None => []
  end.

Definition ordered_chain (e i : option string) (cs ats pcs : list string)
    (pe : option string) : list part :=
  opt_part KElement e ++ opt_part KId i ++ map (pair KClass) cs
    ++ map (pair KAttr) ats ++ map (pair KPseudoClass) pcs
    ++ opt_part KPseudoElement pe.


(** The kinds that may occur once in a chain. *)
Definition singleton (k : kind) : bool :=
  match k with
  | KElement | KId | KPseudoElement => true
  | KClass | KAttr | KPseudoClass => false
  end.

(** Ranks never go down, and go strictly up into a singleton kind; [last] is
    the rank of the part before [ps], [0] at the start of a chain. *)
Fixpoint in_rank_order (last : Z) (ps : list part) : bool :=
  match ps with
  | [] => true
  | (k, _) :: ps' =>
      (if singleton k then last <? rank k else last <=? rank k)
      && in_rank_order (rank k) ps'
  end.

Definition kinds (ps : list part) : list kind := fst <$> ps.

(** ** A call in closed form

    Running a method body on a receiver that exists gives one of three
    results: the order check throws (heap untouched), the duplicate check
    throws (the new object is left behind, unreachable), or the new builder
    is returned. *)

(** The occurrence counter a method increments, if it has one. *)
Definition counter (k : kind) (h : heap) (this : ref) : option Z :=
  match k with
  | KElement => Some (get_elementOrder h this)
  | KId => Some (get_idOrder h this)
  | KPseudoElement => Some (get_pseudoOrder h this)
  | KClass | KAttr | KPseudoClass => None
  end.

(** The new object at the moment the duplicate check throws; [c] is the
    incremented counter. *)
Definition discarded (k : kind) (c : Z) : builder_obj :=
  match k with
  | KElement => BuilderObj None (Some c) None None None
  | KId => BuilderObj None None (Some c) None (Some 2)
  | KPseudoElement => BuilderObj None None None (Some c) (Some 6)
  | KClass | KAttr | KPseudoClass => empty_obj
  end.

(** The new object when the method returns it. *)
Definition built (k : kind) (this : ref) (v : string) (h : heap)
    : builder_obj :=
  let s := get_resultString h this in
  match k with
  | KElement =>
      BuilderObj (Some (root_resultString (root h) +:+ (s +:+ v)))
                 (Some (get_elementOrder h this + 1)) None None None
  | KId =>
      BuilderObj (Some (s +:+ "#" +:+ v)) None
                 (Some (get_idOrder h this + 1)) None (Some 2)
  | KClass => BuilderObj (Some (s +:+ "." +:+ v)) None None None (Some 3)
  | KAttr =>
      BuilderObj (Some (s +:+ "[" +:+ v +:+ "]")) None None None (Some 4)
  | KPseudoClass =>
      BuilderObj (Some (s +:+ ":" +:+ v)) None None None (Some 5)
  | KPseudoElement =>
      BuilderObj (Some (s +:+ "::" +:+ v)) None None
                 (Some (get_pseudoOrder h this + 1)) (Some 6)
  end.

(** What a successful call does to the objects that existed before it: only
    [element] writes to one, its receiver. *)
Definition touch (k : kind) (this : ref) (h : heap) : heap :=
  match k with
  | KElement => set_order this 1 h
  | KId | KClass | KAttr | KPseudoClass | KPseudoElement => h
  end.

Definition call_result (k : kind) (this : ref) (v : string) (h : heap)
    : heap * (error + ref) :=
  let ok := (alloc (built k this v h) (touch k this h),
             inr (Loc (length (objs h)))) in
  if js_gt (get_order h this) (rank k) then (h, inl (Error orderError))
  else match counter k h this with
       | Some c =>
           if c + 1 >? 1
           then (alloc (discarded k (c + 1)) h, inl (Error twiceTimeError))
           else ok
       | None => ok
       end.

(** The object a reference denotes, with its own properties. *)
Definition lookup_ref (h : heap) (r : ref) : option (root_obj + builder_obj) :=
  match r with
  | Root => Some (inl (root h))
  | Loc n => inr <$> objs h !! n
  end.

(** ** What the methods can observe of a builder

    The methods read five properties of their receiver through the prototype
    chain and compare [order] only with ranks, which are at least 1; an
    [order] that is [undefined] behaves like 1 in every such comparison. *)

Record view : Type := View {
  v_text : string;
  v_element : Z;
  v_id : Z;
  v_pseudo : Z;
  v_rank : Z
}.

Definition eff_rank (o : option Z) : Z :=
  match o with
  | Some k => Z.max 1 k
  | None => 1
  end.

Definition view_of (h : heap) (r : ref) : view :=
  View (get_resultString h r) (get_elementOrder h r) (get_idOrder h r)
       (get_pseudoOrder h r) (eff_rank (get_order h r)).

(** One call, on views: the new builder takes its text from the receiver and
    its own counter from the receiver's; the other counters are the root's. *)
Definition step (k : kind) (v : string) (w : view) : error + view :=
  let s := v_text w +:+ fragment (k, v) in
  if v_rank w >? rank k then inl (Error orderError)
  else match k with
       | KElement =>
           if v_element w + 1 >? 1 then inl (Error twiceTimeError)
           else inr (View s (v_element w + 1) 0 0 1)
       | KId =>
           if v_id w + 1 >? 1 then inl (Error twiceTimeError)
           else inr (View s 0 (v_id w + 1) 0 2)
       | KPseudoElement =>
           if v_pseudo w + 1 >? 1 then inl (Error twiceTimeError)
           else inr (View s 0 0 (v_pseudo w + 1) 6)
       | KClass | KAttr | KPseudoClass => inr (View s 0 0 0 (rank k))
       end.

Fixpoint steps (ps : list part) (w : view) : error + view :=
  match ps with
  | [] => inr w
  | (k, v) :: ps' =>
      match step k v w with
      | inl e => inl e
      | inr w' => steps ps' w'
      end
  end.

Definition counter_of (k : kind) (w : view) : Z :=
  match k with
  | KElement => v_element w
  | KId => v_id w
  | KPseudoElement => v_pseudo w
  | KClass | KAttr | KPseudoClass => 0
  end.

(** What every method leaves true of the root: its text and counters are
    those of the literal, and [order] is absent or 1 (only [element] called
    on the root writes it). *)
Definition root_inv (h : heap) : Prop :=
  root_resultString (root h) = "" ∧ root_elementOrder (root h) = 0
  ∧ root_idOrder (root h) = 0 ∧ root_pseudoOrder (root h) = 0
  ∧ (root_order (root h) = None ∨ root_order (root h) = Some 1).

Definition root_view : view := View "" 0 0 0 1.

Definition nonneg (w : view) : Prop :=
  0 ≤ v_element w ∧ 0 ≤ v_id w ∧ 0 ≤ v_pseudo w.

(** A view that a part of rank above [last] can still extend. *)
Definition open_after (last : Z) (w : view) : Prop :=
  v_rank w ≤ Z.max 1 last
  ∧ (last < 1 → v_element w = 0)
  ∧ (last < 2 → v_id w = 0)
  ∧ (last < 6 → v_pseudo w = 0).

(** ** The verdict on a chain, read off its kinds

    [last] is the rank of the part before [ps] ([0] when there is none).  A
    part of lower rank than [last] is an order violation; a singleton kind
    right after a part of its own kind is a duplicate; anything else is
    accepted. *)
Fixpoint first_error (last : Z) (ps : list part) : option error :=
  match ps with
  | [] => None
  | (k, _) :: ps' =>
      if last >? rank k then Some (Error orderError)
      else if singleton k && (last =? rank k) then Some (Error twiceTimeError)
      else first_error (rank k) ps'
  end.

(** The view of a builder whose last part has rank [last]: the counter of
    that part's kind is 1, the other counters are 0. *)
Definition at_rank (last : Z) (w : view) : Prop :=
  v_rank w = Z.max 1 last
  ∧ v_element w = (if last =? 1 then 1 else 0)
  ∧ v_id w = (if last =? 2 then 1 else 0)
  ∧ v_pseudo w = (if last =? 6 then 1 else 0).

(** [b.k1(v1)...kn(vn).stringify()] on any builder [b]. *)
Definition chain_stringify_from (this : ref) (ps : list part) : M string :=
  b ← run_chain this ps; stringify b.

(** ** Heaps used in the examples *)

(** After [cssSelectorBuilder.element('div')]. *)
Definition heap_div : heap := fst (element Root "div" init_heap).

(** After [cssSelectorBuilder.id('x')] and [cssSelectorBuilder.class('x')]. *)
Definition heap_id : heap := fst (id Root "x" init_heap).
Definition heap_class : heap := fst (class Root "x" init_heap).

(** After [d = cssSelectorBuilder.element('div')] and then
    [cssSelectorBuilder.combine(d, '>', cssSelectorBuilder)]. *)
Definition heap_div_combine : heap := fst (combine (Loc 0) ">" Root heap_div).

(** After [d = cssSelectorBuilder.element('div')] and then
    [cssSelectorBuilder.element('table').id('data')]. *)
Definition heap_div_table : heap :=
  fst (run_chain Root [(KElement, "table"); (KId, "data")] heap_div).

(** The client program that produces [heap_div_combine]. *)
Definition prog_div_combine : list cmd :=
  [Call Root KElement "div"; Combine (Loc 0) ">" Root].

(** The client programs that produce [heap_div] and [heap_div_table]. *)
Definition prog_div : list cmd := [Call Root KElement "div"].

Definition prog_div_table : list cmd :=
  [Call Root KElement "div"; Call Root KElement "table";
   Call (Loc 1) KId "data"].

(** On [heap_div]: a second [element] on the first builder (it throws), then
    another [element] on the root. *)
Definition prog_more : list cmd :=
  [Call (Loc 0) KElement "x"; Call Root KElement "y"].

(** ** Tactics *)

(** Unfolds the monad so that a method body becomes a term over the heap
    operations. *)
Ltac run_method :=
  unfold checkQueueCorrectness, mbind, M_bind, read, write, Object_create,
    mret, M_ret, throw;
  cbv beta.

(** Case analysis on the first [a >? b] of the goal. *)
Ltac case_gtb :=
  match goal with
  | |- context [?a >? ?b] => destruct (Z.gtb_spec a b)
  end.


(** * The JSON helpers [getJSON] and [fromJSON]

    Both are one call each to the runtime's [JSON] object.  The runtime is
    not code of this repository; its two functions are modelled from
    ECMA-262 (sections 25.5.1 [JSON.parse], 25.5.2 [JSON.stringify],
    6.1.6.1.20 [Number::toString]) and ECMA-404 (the JSON grammar).  A
    JavaScript string is a sequence of 16-bit code units; texts and keys are
    lists of code units. *)

Abbreviation jsstring := (list N).

Section json_model.
Local Open Scope N_scope.

(** The code units of an ASCII literal. *)
Definition units (s : string) : jsstring :=
  N_of_ascii <$> Stdlib.Strings.String.list_ascii_of_string s.

(** ** Numbers *)

(** Modelled from the spec: the Number type of the runtime (IEEE-754
    doubles) and its conversions to and from text are not code of this
    repository.  They are an interface here: [Number_toString] is
    [Number::toString] with radix 10, [number_of_token] is the Number value
    of a JSON number literal, [is_finite] excludes NaN and the infinities,
    [neg_zero] is negative zero. *)
Class NumberModel : Type := {
  number : Type;
  neg_zero : number;
  is_finite : number → bool;
  Number_toString : number → jsstring;
  number_of_token : jsstring → number
}.

Context {NM : NumberModel}.

(** ** JSON values: what [JSON.parse] can return

    An object is the list of its own enumerable properties in the order
    [OrdinaryOwnPropertyKeys] lists them; nested objects are plain objects
    and nested arrays are arrays. *)
Local Unset Elimination Schemes.
Inductive jvalue : Type :=
  | JNull
  | JBool (b : bool)
  | JNum (x : number)
  | JStr (s : jsstring)
  | JArr (es : list jvalue)
  | JObj (ps : list (jsstring * jvalue)).
Local Set Elimination Schemes.

(** An object with its prototype slot: [None] is [null], [Some i] the object
    with identity [i]. *)
Record js_object : Type := JsObject {
  prototype : option nat;
  own_props : list (jsstring * jvalue)
}.

(** What a call into the runtime model yields: a value, a thrown
    [SyntaxError], or [OutOfFuel] when the recursion budget of the parsing
    functions was too small.  The budget [JSON_parse] gives them suffices
    for every text: [JSON_parse] never returns [OutOfFuel]
    ([JSON_parse_not_OutOfFuel]). *)
Inductive parse_result (A : Type) : Type :=
  | Parsed (a : A)
  | SyntaxError
  | OutOfFuel.
Global Arguments Parsed {A} a.
Global Arguments SyntaxError {A}.
Global Arguments OutOfFuel {A}.

Global Instance parse_result_ret : MRet parse_result := λ A a, Parsed a.
Global Instance parse_result_bind : MBind parse_result := λ A B f m,
  match m with
  | Parsed a => f a
  | SyntaxError => SyntaxError
  | OutOfFuel => OutOfFuel
  end.

(** ** [JSON.stringify] *)

Definition hex_digit (d : N) : N := if d <? 10 then 48 + d else 87 + d.

(** [UnicodeEscape]: a backslash, [u], and four lowercase hexadecimal
    digits. *)
Definition UnicodeEscape (c : N) : jsstring :=
  [92; 117; hex_digit (c / 4096); hex_digit (c / 256 mod 16);
   hex_digit (c / 16 mod 16); hex_digit (c mod 16)].

Definition is_leading_surrogate (c : N) : bool := (55296 <=? c) && (c <=? 56319).
Definition is_trailing_surrogate (c : N) : bool := (56320 <=? c) && (c <=? 57343).

(** One code point that is not a surrogate pair: the two-character escapes
    of backspace, tab, line feed, form feed, carriage return, the quote and
    the backslash; [UnicodeEscape] for the other control characters and for
    a lone surrogate; the code unit itself otherwise. *)
Definition quote_unit (c : N) : jsstring :=
  if c =? 8 then [92; 98]
  else if c =? 9 then [92; 116]
  else if c =? 10 then [92; 110]
  else if c =? 12 then [92; 102]
  else if c =? 13 then [92; 114]
  else if c =? 34 then [92; 34]
  else if c =? 92 then [92; 92]
  else if (c <? 32) || is_leading_surrogate c || is_trailing_surrogate c
  then UnicodeEscape c
  else [c].

(** The code points of the string in turn: a leading surrogate followed by
    a trailing one is one code point and is copied. *)
Fixpoint quote_units (s : jsstring) : jsstring :=
  match s with
  | [] => []
  | c :: s' =>
      match s' with
      | d :: s'' =>
          if is_leading_surrogate c && is_trailing_surrogate d
          then c :: d :: quote_units s''
          else quote_unit c ++ quote_units s'
      | [] => quote_unit c
      end
  end.

Definition QuoteJSONString (s : jsstring) : jsstring :=
  [34] ++ quote_units s ++ [34].

Fixpoint join_comma (xs : list jsstring) : jsstring :=
  match xs with
  | [] => []
  | [x] => x
  | x :: xs' => x ++ [44] ++ join_comma xs'
  end.

(** Modelled from the spec: [JSON.stringify], the spec's standard
    structured serialization, is the runtime's and not code of this
    repository.  This is [SerializeJSONProperty] of ECMA-262 without replacer
    and indentation, on values that have no [toJSON]: a number that is not
    finite becomes [null], members and elements are joined by commas. *)
Fixpoint JSON_stringify (v : jvalue) : jsstring :=
  match v with
  | JNull => units "null"
  | JBool true => units "true"
  | JBool false => units "false"
  | JNum x => if is_finite x then Number_toString x else units "null"
  | JStr s => QuoteJSONString s
  | JArr es => [91] ++ join_comma (map JSON_stringify es) ++ [93]
  | JObj ps =>
      [123]
      ++ join_comma
           (map (λ '(k, v), QuoteJSONString k ++ [58] ++ JSON_stringify v) ps)
      ++ [125]
  end.

(** ** Property keys and [CreateDataProperty] *)

Definition is_digit (c : N) : bool := (48 <=? c) && (c <=? 57).

Definition digits_value (s : jsstring) : option N :=
  if forallb is_digit s
  then Some (foldl (λ n c, 10 * n + (c - 48)) 0 s)
  else None.

(** [ToString] of a non-negative integer. *)
Definition decimal (n : N) : jsstring := units (pretty n).

(** An array index is a key that is the canonical decimal text of an
    integer below 2^32 - 1. *)
Definition array_index (k : jsstring) : option N :=
  match digits_value k with
  | Some n =>
      if bool_decide (decimal n = k) && (n <? 4294967295) then Some n else None
  | None => None
  end.

(** [OrdinaryOwnPropertyKeys]: array indices in ascending order first, then
    the other keys in the order they were created. *)
Definition key_goes_before (k k' : jsstring) : bool :=
  match array_index k, array_index k' with
  | Some i, Some j => i <? j
  | Some _, None => true
  | None, _ => false
  end.

Fixpoint add_prop (k : jsstring) (v : jvalue) (ps : list (jsstring * jvalue))
    : list (jsstring * jvalue) :=
  match ps with
  | [] => [(k, v)]
  | (k', v') :: ps' =>
      if key_goes_before k k' then (k, v) :: ps
      else (k', v') :: add_prop k v ps'
  end.

Fixpoint replace_prop (k : jsstring) (v : jvalue)
    (ps : list (jsstring * jvalue)) : list (jsstring * jvalue) :=
  match ps with
  | [] => []
  | (k', v') :: ps' =>
      if bool_decide (k' = k) then (k, v) :: ps'
      else (k', v') :: replace_prop k v ps'
  end.

(** An existing property keeps its place and takes the new value; a new one
    is created. *)
Definition CreateDataProperty (ps : list (jsstring * jvalue))
    (kv : jsstring * jvalue) : list (jsstring * jvalue) :=
  if bool_decide (kv.1 ∈ ps.*1) then replace_prop kv.1 kv.2 ps
  else add_prop kv.1 kv.2 ps.

(** The object that results from creating the given properties in turn on a
    new object. *)
Definition build_object (ms : list (jsstring * jvalue))
    : list (jsstring * jvalue) :=
  foldl CreateDataProperty [] ms.

(** ** [JSON.parse] *)

Definition is_ws (c : N) : bool :=
  (c =? 32) || (c =? 9) || (c =? 10) || (c =? 13).

Fixpoint skip_ws (s : jsstring) : jsstring :=
  match s with
  | c :: s' => if is_ws c then skip_ws s' else s
  | [] => []
  end.

Definition hex_value (c : N) : option N :=
  if (48 <=? c) && (c <=? 57) then Some (c - 48)
  else if (97 <=? c) && (c <=? 102) then Some (c - 87)
  else if (65 <=? c) && (c <=? 70) then Some (c - 55)
  else None.

(** The character a two-character escape stands for. *)
Definition simple_escape (e : N) : option N :=
  if e =? 34 then Some 34
  else if e =? 92 then Some 92
  else if e =? 47 then Some 47
  else if e =? 98 then Some 8
  else if e =? 102 then Some 12
  else if e =? 110 then Some 10
  else if e =? 114 then Some 13
  else if e =? 116 then Some 9
  else None.

Definition cons_unit (u : N) (r : parse_result (jsstring * jsstring))
    : parse_result (jsstring * jsstring) :=
  '(str, rest) ← r; mret (u :: str, rest).

(** A string literal after its opening quote: the string and the text after
    the closing quote.  A control character may not occur unescaped. *)
Fixpoint parse_string_units (s : jsstring)
    : parse_result (jsstring * jsstring) :=
  match s with
  | [] => SyntaxError
  | c :: s1 =>
      if c =? 34 then Parsed ([], s1)
      else if c =? 92 then
        match s1 with
        | [] => SyntaxError
        | e :: s2 =>
            if e =? 117 then
              match s2 with
              | h3 :: h2 :: h1 :: h0 :: s3 =>
                  match hex_value h3, hex_value h2, hex_value h1,
                        hex_value h0 with
                  | Some a, Some b, Some c', Some d =>
                      cons_unit (((a * 16 + b) * 16 + c') * 16 + d)
                        (parse_string_units s3)
                  | _, _, _, _ => SyntaxError
                  end
              | _ => SyntaxError
              end
            else
              match simple_escape e with
              | Some u => cons_unit u (parse_string_units s2)
              | None => SyntaxError
              end
        end
      else if c <? 32 then SyntaxError
      else cons_unit c (parse_string_units s1)
  end.

(** The characters a number literal is made of. *)
Definition is_number_char (c : N) : bool :=
  is_digit c || (c =? 43) || (c =? 45) || (c =? 46) || (c =? 101) || (c =? 69).

(** The longest run of number characters and the text after it. *)
Fixpoint number_token (s : jsstring) : jsstring * jsstring :=
  match s with
  | c :: s' =>
      if is_number_char c
      then let '(t, rest) := number_token s' in (c :: t, rest)
      else ([], s)
  | [] => ([], [])
  end.

Fixpoint skip_digits (s : jsstring) : jsstring :=
  match s with
  | c :: s' => if is_digit c then skip_digits s' else s
  | [] => []
  end.

Definition nonempty_digits (s : jsstring) : bool :=
  match s with
  | [] => false
  | _ :: _ => forallb is_digit s
  end.

(** The JSON number grammar: an optional minus, [0] or a digit from 1 to 9
    followed by digits, an optional fraction (a point and at least one
    digit), an optional exponent ([e] or [E], an optional sign, at least
    one digit). *)
Definition exponent_ok (s : jsstring) : bool :=
  match s with
  | c :: s' =>
      if (c =? 43) || (c =? 45) then nonempty_digits s' else nonempty_digits s
  | [] => false
  end.

Definition after_fraction (s : jsstring) : bool :=
  match s with
  | [] => true
  | c :: s' => if (c =? 101) || (c =? 69) then exponent_ok s' else false
  end.

Definition after_int (s : jsstring) : bool :=
  match s with
  | [] => true
  | c :: s' =>
      if c =? 46 then
        match s' with
        | d :: _ => is_digit d && after_fraction (skip_digits s')
        | [] => false
        end
      else after_fraction s
  end.

Definition unsigned_number (s : jsstring) : bool :=
  match s with
  | c :: s' =>
      if c =? 48 then after_int s'
      else if is_digit c then after_int (skip_digits s')
      else false
  | [] => false
  end.

Definition is_json_number (s : jsstring) : bool :=
  match s with
  | c :: s' => if c =? 45 then unsigned_number s' else unsigned_number s
  | [] => false
  end.

(** The rest of a literal name after its first letter. *)
Fixpoint expect (lit s : jsstring) (v : jvalue)
    : parse_result (jvalue * jsstring) :=
  match lit, s with
  | [], _ => Parsed (v, s)
  | l :: lit', c :: s' => if c =? l then expect lit' s' v else SyntaxError
  | _ :: _, [] => SyntaxError
  end.

(** Modelled from the spec: [JSON.parse], the spec's parsing of the string
    into a plain structured value, is the runtime's and not code of this
    repository; this follows the JSON grammar of ECMA-404 and the object
    construction of ECMA-262.  The three functions read a value, the
    elements of a non-empty array after its bracket, and the members of a
    non-empty object after its brace; each returns the text
    that follows.  A number literal is the longest run of number characters
    and must match the grammar, since no such character can follow a value.
    An object is built by [CreateDataProperty] member by member, so of two
    members with one name the later value stays. *)
Fixpoint parse_value (fuel : nat) (s : jsstring)
    : parse_result (jvalue * jsstring) :=
  match fuel with
  | O => OutOfFuel
  | S fuel' =>
      match skip_ws s with
      | [] => SyntaxError
      | c :: s1 =>
          if c =? 110 then expect (units "ull") s1 JNull
          else if c =? 116 then expect (units "rue") s1 (JBool true)
          else if c =? 102 then expect (units "alse") s1 (JBool false)
          else if c =? 34 then
            '(str, s2) ← parse_string_units s1; mret (JStr str, s2)
          else if c =? 91 then
            match skip_ws s1 with
            | c1 :: s2 =>
                if c1 =? 93 then Parsed (JArr [], s2)
                else '(es, s3) ← parse_elements fuel' s1; mret (JArr es, s3)
            | [] => SyntaxError
            end
          else if c =? 123 then
            match skip_ws s1 with
            | c1 :: s2 =>
                if c1 =? 125 then Parsed (JObj [], s2)
                else '(ms, s3) ← parse_members fuel' s1;
                     mret (JObj (build_object ms), s3)
            | [] => SyntaxError
            end
          else if (c =? 45) || is_digit c then
            let '(tok, s2) := number_token (c :: s1) in
            if is_json_number tok
            then Parsed (JNum (number_of_token tok), s2)
            else SyntaxError
          else SyntaxError
      end
  end
with parse_elements (fuel : nat) (s : jsstring)
    : parse_result (list jvalue * jsstring) :=
  match fuel with
  | O => OutOfFuel
  | S fuel' =>
      '(v, s1) ← parse_value fuel' s;
      match skip_ws s1 with
      | c :: s2 =>
          if c =? 44 then
            '(vs, s3) ← parse_elements fuel' s2; mret (v :: vs, s3)
          else if c =? 93 then Parsed ([v], s2)
          else SyntaxError
      | [] => SyntaxError
      end
  end
with parse_members (fuel : nat) (s : jsstring)
    : parse_result (list (jsstring * jvalue) * jsstring) :=
  match fuel with
  | O => OutOfFuel
  | S fuel' =>
      match skip_ws s with
      | c :: s1 =>
          if c =? 34 then
            '(k, s2) ← parse_string_units s1;
            match skip_ws s2 with
            | c2 :: s3 =>
                if c2 =? 58 then
                  '(v, s4) ← parse_value fuel' s3;
                  match skip_ws s4 with
                  | c4 :: s5 =>
                      if c4 =? 44 then
                        '(ms, s6) ← parse_members fuel' s5;
                        mret ((k, v) :: ms, s6)
                      else if c4 =? 125 then Parsed ([(k, v)], s5)
                      else SyntaxError
                  | [] => SyntaxError
                  end
                else SyntaxError
            | [] => SyntaxError
            end
          else SyntaxError
      | [] => SyntaxError
      end
  end.

(** The whole text must be one value, with white space around it at most. *)
Definition JSON_parse (text : jsstring) : parse_result jvalue :=
  '(v, rest) ← parse_value (2 * length text + 2) text;
  match skip_ws rest with
  | [] => Parsed v
  | _ :: _ => SyntaxError
  end.

(** ** The two functions of the source *)

(** [{ ...x }]: the own enumerable properties of [x] created in turn on a
    new object.  An array has its elements under their indices, a string
    its code units; [null], a boolean and a number have none. *)
Definition spread (v : jvalue) : list (jsstring * jvalue) :=
  match v with
  | JObj ps => build_object ps
  | JArr es => build_object (imap (λ i e, (decimal (N.of_nat i), e)) es)
  | JStr s => build_object (imap (λ i c, (decimal (N.of_nat i), JStr [c])) s)
  | JNull | JBool _ | JNum _ => []
  end.

Definition getJSON (obj : jvalue) : jsstring := JSON_stringify obj.

(** [Object.setPrototypeOf] on the new object cannot fail: it is extensible
    and [proto] is an object or [null]. *)
Definition fromJSON (proto : option nat) (json : jsstring)
    : parse_result js_object :=
  parsed ← JSON_parse json;
  mret (JsObject proto (spread parsed)).

(** ** The objects the round trip is about *)

(** [k1] may come before [k2] among the own keys of one object: indices
    ascend and precede the other keys, and no key occurs twice. *)
Definition key_precedes (k1 k2 : jsstring) : Prop :=
  match array_index k1, array_index k2 with
  | Some i, Some j => i < j
  | Some _, None => True
  | None, Some _ => False
  | None, None => k1 ≠ k2
  end.

Definition own_key_order (ks : list jsstring) : Prop :=
  StronglySorted key_precedes ks.

(** A JSON-representable value: every number is finite, and every object,
    at any depth, lists its properties in own-key order (the state of a
    real object). *)
Fixpoint json_representable (v : jvalue) : Prop :=
  match v with
  | JNull | JBool _ | JStr _ => True
  | JNum x => is_finite x = true
  | JArr es =>
      (fix all es :=
         match es with
         | [] => True
         | e :: es' => json_representable e ∧ all es'
         end) es
  | JObj ps =>
      own_key_order ps.*1
      ∧ (fix all ps :=
           match ps with
           | [] => True
           | (_, e) :: ps' => json_representable e ∧ all ps'
           end) ps
  end.

(** No number in the value is negative zero. *)
Fixpoint no_negative_zero (v : jvalue) : Prop :=
  match v with
  | JNull | JBool _ | JStr _ => True
  | JNum x => x ≠ neg_zero
  | JArr es =>
      (fix all es :=
         match es with
         | [] => True
         | e :: es' => no_negative_zero e ∧ all es'
         end) es
  | JObj ps =>
      (fix all ps :=
         match ps with
         | [] => True
         | (_, e) :: ps' => no_negative_zero e ∧ all ps'
         end) ps
  end.

(** The recursion budget [parse_value] needs for a printed value. *)
Fixpoint value_size (v : jvalue) : nat :=
  match v with
  | JNull | JBool _ | JNum _ | JStr _ => 1
  | JArr es => S (foldr (λ e n, S (value_size e + n)%nat) O es)
  | JObj ps => S (foldr (λ '(_, e) n, S (value_size e + n)%nat) O ps)
  end.

(** The value with every negative zero replaced by [pos_zero]. *)
Fixpoint without_negative_zero `{!EqDecision number} (pos_zero : number)
    (v : jvalue) : jvalue :=
  match v with
  | JNull | JBool _ | JStr _ => v
  | JNum x => if decide (x = neg_zero) then JNum pos_zero else v
  | JArr es => JArr (map (without_negative_zero pos_zero) es)
  | JObj ps =>
      JObj (map (λ '(k, e), (k, without_negative_zero pos_zero e)) ps)
  end.

(** ** Notions used in the proofs *)

(** A text that no number character can continue. *)
Definition ends_number (rest : jsstring) : Prop :=
  match rest with
  | [] => True
  | c :: _ => is_number_char c = false
  end.

(** The first character of a printed value is neither white space nor a
    closing bracket or brace. *)
Definition starts_value (s : jsstring) : Prop :=
  match s with
  | c :: _ => is_ws c = false ∧ c ≠ 93 ∧ c ≠ 125
  | [] => False
  end.

(** One member of a printed object. *)
Definition stringify_member (kv : jsstring * jvalue) : jsstring :=
  QuoteJSONString kv.1 ++ [58] ++ JSON_stringify kv.2.

(** Printing [v] and parsing the text gives [v] back, within the budget
    [value_size v] and whatever text follows that cannot continue a number. *)
Definition round_trips (v : jvalue) : Prop :=
  ∀ fuel rest,
    (value_size v ≤ fuel)%nat →
    ends_number rest →
    parse_value fuel (JSON_stringify v ++ rest) = Parsed (v, rest).

(** What the three parsing functions return: a value with less text left
    than they were given, a syntax error, or [OutOfFuel], and then the
    budget was below twice the length of the text. *)
Definition within_budget {A} (r : parse_result (A * jsstring))
    (s : jsstring) (short : Prop) : Prop :=
  match r with
  | Parsed (_, rest) => (length rest < length s)%nat
  | SyntaxError => True
  | OutOfFuel => short
  end.

(** Modelled from the spec: what ECMA-262 states of [Number::toString] on
    finite numbers (6.1.6.1.20 and its notes), taken as given: the text
    is a number literal of the JSON grammar (digits, an optional fraction,
    an optional exponent with sign), and it denotes the number printed,
    except that negative zero prints as [0]. *)
Class NumberLaws : Prop := {
  toString_is_json_number x :
    is_finite x = true → is_json_number (Number_toString x) = true;
  toString_round_trip x :
    is_finite x = true → x ≠ neg_zero →
    number_of_token (Number_toString x) = x
}.

End json_model.

(** ** A sample of the Number type

    Four Number values, enough to run the model on concrete objects: the two
    zeros, one, and NaN.  [Number::toString] prints both zeros as [0]; the
    literal [-0] denotes negative zero.  Every other literal denotes a
    Number outside the sample. *)
Inductive sample_number : Type := PosZero | NegZero | One | NaN.

#[global] Instance sample_number_eq_dec : EqDecision sample_number.
Proof. solve_decision. Defined.

Definition sample_toString (x : sample_number) : jsstring :=
  match x with
  | PosZero | NegZero => units "0"
  | One => units "1"
  | NaN => units "NaN"
  end.

Definition sample_of_token (t : jsstring) : sample_number :=
  if bool_decide (t = units "0") then PosZero
  else if bool_decide (t = units "-0") then NegZero
  else if bool_decide (t = units "1") then One
  else NaN.

Definition sample_numbers : NumberModel := {|
  number := sample_number;
  neg_zero := NegZero;
  is_finite := λ x, if x is NaN then false else true;
  Number_toString := sample_toString;
  number_of_token := sample_of_token
|}.

(** A number of the sample as a JSON value. *)
Definition sample_num (x : sample_number) : @jvalue sample_numbers :=
  @JNum sample_numbers x.

(** [{ a: -0 }] *)
Definition obj_negative_zero : @jvalue sample_numbers :=
  JObj [(units "a", sample_num NegZero)].

(** An object with an index key, a number, an array and a nested object:
    [{ 0: 1, a: 0, list: [true, null, s, {}], nested: { b: false } }], where
    [s] is the string of the three code units x, quotation mark, y. *)
Definition sample_props : list (list N * @jvalue sample_numbers) :=
  [(units "0", sample_num One);
   (units "a", sample_num PosZero);
   (units "list",
    JArr [JBool true; JNull; JStr [120; 34; 121]%N; JObj []]);
   (units "nested", JObj [(units "b", JBool false)])].

(** * Properties *)

(** ** The examples of the source's comment

    (the attribute of the second one is written without its inner quotes) *)

Example example_id_classes :
  outcome (chain_stringify
    [(KId, "main"); (KClass, "container"); (KClass, "editable")]) init_heap
  = inr "#main.container.editable".
Proof. reflexivity. Qed.

Example example_attr_pseudoClass :
  outcome (chain_stringify
    [(KElement, "a"); (KAttr, "href$=.png"); (KPseudoClass, "focus")])
    init_heap
  = inr "a[href$=.png]:focus".
Proof. reflexivity. Qed.

Example example_combine :
  outcome (a ← run_chain Root [(KElement, "div"); (KId, "main")];
           b ← run_chain Root [(KElement, "table"); (KId, "data")];
           c ← combine a "+" b;
           stringify c) init_heap
  = inr "div#main + table#data".
Proof. reflexivity. Qed.

Example example_element_twice :
  outcome (run_chain Root [(KElement, "a"); (KElement, "b")]) init_heap
  = inl (Error twiceTimeError).
Proof. reflexivity. Qed.

Example example_class_then_element :
  outcome (run_chain Root [(KClass, "x"); (KElement, "a")]) init_heap
  = inl (Error orderError).
Proof. reflexivity. Qed.

Example example_id_then_element :
  outcome (run_chain Root [(KId, "x"); (KElement, "a")]) init_heap
  = inl (Error orderError).
Proof. reflexivity. Qed.

(** ** Heap lemmas *)

Lemma valid_ref_Loc h n :
  valid_ref h (Loc n) = true ↔ (n < length (objs h))%nat.
Proof. cbn. by rewrite bool_decide_eq_true. Qed.

Lemma length_objs_update this fb fr h :
  length (objs (update this fb fr h)) = length (objs h).
Proof. destruct this; cbn; [done|]. apply length_alter. Qed.

Lemma length_objs_set_order this k h :
  length (objs (set_order this k h)) = length (objs h).
Proof. apply length_objs_update. Qed.

Lemma valid_ref_set_order this k h r :
  valid_ref (set_order this k h) r = valid_ref h r.
Proof.
  destruct r; [done|]. unfold valid_ref. by rewrite length_objs_set_order.
Qed.

Lemma get_resultString_set_order this k r h :
  get_resultString (set_order this k h) r = get_resultString h r.
Proof.
  destruct r as [|n]; destruct this as [|m]; try done.
  unfold get_resultString, own; cbn.
  destruct (decide (m = n)) as [->|Hne].
  - rewrite list_lookup_alter_eq. by destruct (objs h !! n).
  - by rewrite list_lookup_alter_ne.
Qed.

Lemma root_resultString_set_order this k h :
  root_resultString (root (set_order this k h)) = root_resultString (root h).
Proof. by destruct this. Qed.

(** The object [alloc] adds sits at the first free location [n]; the objects
    below it are as they were. *)
Section alloc_lemmas.
Context (h : heap) (n : nat) (Hn : n = length (objs h)).

Lemma own_alloc_new o : own (alloc o h) n = o.
Proof.
  unfold own, alloc; cbn. subst n.
  by rewrite lookup_app_r, Nat.sub_diag.
Qed.

Lemma own_alloc_old o m :
  (m < length (objs h))%nat → own (alloc o h) m = own h m.
Proof. intros Hm. unfold own, alloc; cbn. by rewrite lookup_app_l. Qed.

Lemma update_new fb fr o :
  update (Loc n) fb fr (alloc o h) = alloc (fb o) h.
Proof.
  unfold update, alloc; cbn. f_equal. subst n.
  replace (length (objs h)) with (length (objs h) + 0)%nat at 1 by lia.
  by rewrite alter_app_r.
Qed.

Lemma update_alloc this fb fr o :
  valid_ref h this = true →
  update this fb fr (alloc o h) = alloc o (update this fb fr h).
Proof.
  destruct this as [|m]; [done|].
  rewrite valid_ref_Loc. intros Hm.
  unfold update, alloc; cbn. f_equal. by apply alter_app_l.
Qed.

Lemma lookup_ref_alloc o r :
  valid_ref h r = true → lookup_ref (alloc o h) r = lookup_ref h r.
Proof.
  destruct r as [|m]; [done|]. rewrite valid_ref_Loc. intros Hm.
  cbn. by rewrite lookup_app_l.
Qed.

Lemma valid_ref_new o : valid_ref (alloc o h) (Loc n) = true.
Proof. rewrite valid_ref_Loc. cbn. rewrite length_app. cbn. lia. Qed.

Lemma get_resultString_alloc o this :
  valid_ref h this = true →
  get_resultString (alloc o h) this = get_resultString h this.
Proof.
  destruct this as [|m]; [done|]. rewrite valid_ref_Loc. intros Hm.
  unfold get_resultString. by rewrite own_alloc_old.
Qed.

Lemma get_elementOrder_alloc o this :
  valid_ref h this = true →
  get_elementOrder (alloc o h) this = get_elementOrder h this.
Proof.
  destruct this as [|m]; [done|]. rewrite valid_ref_Loc. intros Hm.
  unfold get_elementOrder. by rewrite own_alloc_old.
Qed.

Lemma get_idOrder_alloc o this :
  valid_ref h this = true →
  get_idOrder (alloc o h) this = get_idOrder h this.
Proof.
  destruct this as [|m]; [done|]. rewrite valid_ref_Loc. intros Hm.
  unfold get_idOrder. by rewrite own_alloc_old.
Qed.

Lemma get_pseudoOrder_alloc o this :
  valid_ref h this = true →
  get_pseudoOrder (alloc o h) this = get_pseudoOrder h this.
Proof.
  destruct this as [|m]; [done|]. rewrite valid_ref_Loc. intros Hm.
  unfold get_pseudoOrder. by rewrite own_alloc_old.
Qed.

Lemma get_resultString_new o :
  get_resultString (alloc o h) (Loc n)
  = default (root_resultString (root h)) (resultString o).
Proof. unfold get_resultString. by rewrite own_alloc_new. Qed.

Lemma get_elementOrder_new o :
  get_elementOrder (alloc o h) (Loc n)
  = default (root_elementOrder (root h)) (elementOrder o).
Proof. unfold get_elementOrder. by rewrite own_alloc_new. Qed.

Lemma get_idOrder_new o :
  get_idOrder (alloc o h) (Loc n)
  = default (root_idOrder (root h)) (idOrder o).
Proof. unfold get_idOrder. by rewrite own_alloc_new. Qed.

Lemma get_pseudoOrder_new o :
  get_pseudoOrder (alloc o h) (Loc n)
  = default (root_pseudoOrder (root h)) (pseudoOrder o).
Proof. unfold get_pseudoOrder. by rewrite own_alloc_new. Qed.

Lemma get_order_new o :
  get_order (alloc o h) (Loc n)
  = match order o with Some k => Some k | None => root_order (root h) end.
Proof. unfold get_order. by rewrite own_alloc_new. Qed.
End alloc_lemmas.

(** ** Each method body equals its closed form *)

Lemma element_eq this v h :
  valid_ref h this = true →
  element this v h = call_result KElement this v h.
Proof.
  intros Hv. unfold element, call_result. run_method.
  destruct (js_gt _ _); [done|]. cbv beta.
  unfold set_elementOrder, set_resultString.
  rewrite update_new, get_elementOrder_new, get_elementOrder_alloc by done.
  cbn [with_elementOrder elementOrder default empty_obj counter].
  destruct (_ >? 1); [done|].
  unfold set_order at 1 2 3 4 5; rewrite update_alloc by done;
    fold (set_order this 1 h).
  rewrite update_new, get_resultString_new, get_resultString_alloc
    by (by rewrite ?length_objs_set_order, ?valid_ref_set_order).
  by rewrite get_resultString_set_order, root_resultString_set_order.
Qed.

Lemma id_eq this v h :
  valid_ref h this = true →
  id this v h = call_result KId this v h.
Proof.
  intros Hv. unfold id, call_result. run_method.
  destruct (js_gt _ _); [done|]. cbv beta.
  unfold set_idOrder, set_order, set_resultString.
  rewrite !update_new, get_idOrder_new, get_idOrder_alloc by done.
  cbn [with_idOrder with_order idOrder default empty_obj counter].
  destruct (_ >? 1); [done|].
  by rewrite update_new, get_resultString_alloc by done.
Qed.

Lemma pseudoElement_eq this v h :
  valid_ref h this = true →
  pseudoElement this v h = call_result KPseudoElement this v h.
Proof.
  intros Hv. unfold pseudoElement, call_result. run_method.
  destruct (js_gt _ _); [done|]. cbv beta.
  unfold set_pseudoOrder, set_order, set_resultString.
  rewrite !update_new, get_pseudoOrder_new, get_pseudoOrder_alloc by done.
  cbn [with_pseudoOrder with_order pseudoOrder default empty_obj counter].
  destruct (_ >? 1); [done|].
  by rewrite update_new, get_resultString_alloc by done.
Qed.

(** The three repeatable kinds share one body up to the rank and the text. *)
Ltac repeatable_eq :=
  intros Hv; unfold call_result; run_method;
  destruct (js_gt _ _); [done|]; cbv beta;
  unfold set_order, set_resultString;
  by rewrite !update_new, get_resultString_alloc by done.

Lemma class_eq this v h :
  valid_ref h this = true →
  class this v h = call_result KClass this v h.
Proof. unfold class. repeatable_eq. Qed.

Lemma attr_eq this v h :
  valid_ref h this = true →
  attr this v h = call_result KAttr this v h.
Proof. unfold attr. repeatable_eq. Qed.

Lemma pseudoClass_eq this v h :
  valid_ref h this = true →
  pseudoClass this v h = call_result KPseudoClass this v h.
Proof. unfold pseudoClass. repeatable_eq. Qed.

Lemma call_eq k this v h :
  valid_ref h this = true →
  call k this v h = call_result k this v h.
Proof.
  destruct k; cbn [call];
    eauto using element_eq, id_eq, class_eq, attr_eq, pseudoClass_eq,
      pseudoElement_eq.
Qed.

Lemma combine_eq s1 t s2 h :
  valid_ref h s1 = true →
  valid_ref h s2 = true →
  combine s1 t s2 h =
  (alloc (BuilderObj
            (Some (get_resultString h s1 +:+ " " +:+ t +:+ " "
                     +:+ get_resultString h s2))
            None None None None) h,
   inr (Loc (length (objs h)))).
Proof.
  intros H1 H2. unfold combine. run_method.
  unfold set_resultString.
  by rewrite update_new, !get_resultString_alloc by done.
Qed.

(** ** A call refines a step on views *)

Lemma rank_pos k : 1 ≤ rank k.
Proof. destruct k; cbn; lia. Qed.

Lemma js_gt_eff_rank o k : js_gt o (rank k) = (eff_rank o >? rank k).
Proof.
  pose proof (rank_pos k). unfold js_gt, eff_rank.
  destruct o as [x|].
  - destruct (Z.gtb_spec x (rank k)), (Z.gtb_spec (Z.max 1 x) (rank k));
      done || lia.
  - destruct (Z.gtb_spec 1 (rank k)); done || lia.
Qed.

Lemma root_inv_alloc o h : root_inv h → root_inv (alloc o h).
Proof. done. Qed.

Lemma root_inv_set_order this h : root_inv h → root_inv (set_order this 1 h).
Proof.
  destruct this; [|done]. unfold root_inv; cbn. intuition.
Qed.

Lemma root_inv_touch k this h : root_inv h → root_inv (touch k this h).
Proof. destruct k; cbn [touch]; auto using root_inv_set_order. Qed.

Lemma length_objs_touch k this h :
  length (objs (touch k this h)) = length (objs h).
Proof. destruct k; cbn [touch]; auto using length_objs_set_order. Qed.

Lemma call_step k this v h :
  root_inv h →
  valid_ref h this = true →
  match step k v (view_of h this) with
  | inl e => outcome (call k this v) h = inl e
  | inr w =>
      ∃ h', call k this v h = (h', inr (Loc (length (objs h))))
            ∧ view_of h' (Loc (length (objs h))) = w
            ∧ root_inv h'
            ∧ valid_ref h' (Loc (length (objs h))) = true
  end.
Proof.
  intros Hinv Hv. unfold outcome. rewrite call_eq by done.
  unfold call_result, step. rewrite js_gt_eff_rank.
  cbn [view_of v_rank v_element v_id v_pseudo v_text].
  destruct (_ >? rank k); [done|].
  assert (Hok : ∃ h',
    (alloc (built k this v h) (touch k this h),
     inr (Loc (length (objs h))) : error + ref)
    = (h', inr (Loc (length (objs h))))
    ∧ view_of h' (Loc (length (objs h)))
      = View (get_resultString h this +:+ fragment (k, v))
             (if k is KElement then get_elementOrder h this + 1 else 0)
             (if k is KId then get_idOrder h this + 1 else 0)
             (if k is KPseudoElement then get_pseudoOrder h this + 1 else 0)
             (rank k)
    ∧ root_inv h' ∧ valid_ref h' (Loc (length (objs h))) = true).
  { eexists; split; [done|].
    pose proof (length_objs_touch k this h) as Hlen.
    pose proof (root_inv_touch k this h Hinv) as Hinv'.
    split; [|split].
    - unfold view_of.
      rewrite get_resultString_new, get_elementOrder_new, get_idOrder_new,
        get_pseudoOrder_new, get_order_new by done.
      destruct Hinv as (Hs & _), Hinv' as (_ & -> & -> & -> & Ho).
      destruct k; cbn in Ho |- *; rewrite ?Hs; try done.
      by destruct Ho as [-> | ->].
    - by apply root_inv_alloc.
    - rewrite <- Hlen. by apply valid_ref_new. }
  destruct k; cbn [counter]; try done; by destruct (_ >? 1).
Qed.

(** ** Chains refine sequences of steps *)

Lemma append_assoc (s1 s2 s3 : string) :
  (s1 +:+ s2) +:+ s3 = s1 +:+ (s2 +:+ s3).
Proof.
  induction s1 as [|a s1 IH]; [done|].
  change (String a ((s1 +:+ s2) +:+ s3) = String a (s1 +:+ (s2 +:+ s3))).
  by rewrite IH.
Qed.

Lemma append_nil_r (s : string) : s +:+ "" = s.
Proof.
  induction s as [|a s IH]; [done|].
  change (String a (s +:+ "") = String a s). by rewrite IH.
Qed.

Lemma view_of_root h : root_inv h → view_of h Root = root_view.
Proof.
  intros (Hs & He & Hi & Hp & Ho). unfold view_of, root_view; cbn.
  rewrite Hs, He, Hi, Hp. by destruct Ho as [-> | ->].
Qed.

Lemma run_chain_steps ps : ∀ this h,
  root_inv h →
  valid_ref h this = true →
  match steps ps (view_of h this) with
  | inl e => outcome (run_chain this ps) h = inl e
  | inr w =>
      ∃ h' b, run_chain this ps h = (h', inr b)
              ∧ view_of h' b = w ∧ root_inv h' ∧ valid_ref h' b = true
  end.
Proof.
  induction ps as [|[k v] ps IH]; intros this h Hinv Hv; cbn [steps].
  - by exists h, this.
  - pose proof (call_step k this v h Hinv Hv) as Hc.
    unfold outcome in *. cbn [run_chain]. unfold mbind, M_bind.
    destruct (step k v (view_of h this)) as [e|w].
    + by destruct (call k this v h) as [h1 [e1|b1]]; cbn in Hc |- *.
    + destruct Hc as (h1 & -> & <- & Hinv1 & Hv1).
      apply (IH _ _ Hinv1 Hv1).
Qed.

Lemma run_chain_ok_view ps this h h1 b :
  root_inv h →
  valid_ref h this = true →
  run_chain this ps h = (h1, inr b) →
  steps ps (view_of h this) = inr (view_of h1 b)
  ∧ root_inv h1 ∧ valid_ref h1 b = true.
Proof.
  intros Hinv Hv Hrun. pose proof (run_chain_steps ps this h Hinv Hv) as H.
  destruct (steps ps (view_of h this)) as [e|w].
  - unfold outcome in H. rewrite Hrun in H. done.
  - destruct H as (h' & b' & Hrun' & <- & ? & ?).
    rewrite Hrun in Hrun'. by simplify_eq.
Qed.

Lemma chain_stringify_steps ps h :
  root_inv h →
  outcome (chain_stringify ps) h
  = match steps ps root_view with
    | inl e => inl e
    | inr w => inr (v_text w)
    end.
Proof.
  intros Hinv. pose proof (run_chain_steps ps Root h Hinv eq_refl) as H.
  rewrite (view_of_root h Hinv) in H.
  unfold outcome, chain_stringify, mbind, M_bind in *.
  destruct (steps ps root_view) as [e|w].
  - by destruct (run_chain Root ps h) as [h1 [e1|b1]]; cbn in H; simplify_eq.
  - by destruct H as (h1 & b & -> & <- & _).
Qed.

Lemma exec_cmd_root_inv c h h' :
  exec_cmd c h = Some h' → root_inv h → root_inv h'.
Proof.
  destruct c as [this k v|s1 t s2]; cbn [exec_cmd].
  - destruct (valid_ref h this) eqn:Hv; [|done].
    rewrite call_eq by done. intros [= <-] Hinv. unfold call_result.
    destruct (js_gt _ _); [done|].
    assert (root_inv (alloc (built k this v h) (touch k this h)))
      by auto using root_inv_alloc, root_inv_touch.
    destruct (counter k h this); [|done]. by destruct (_ >? 1).
  - destruct (valid_ref h s1) eqn:H1, (valid_ref h s2) eqn:H2; try done.
    cbn [andb]. rewrite combine_eq by done. by intros [= <-] Hinv.
Qed.

Lemma exec_prog_root_inv p : ∀ h h',
  exec_prog p h = Some h' → root_inv h → root_inv h'.
Proof.
  induction p as [|c p IH]; intros h h'; cbn [exec_prog].
  - by intros [= <-].
  - destruct (exec_cmd c h) as [h1|] eqn:Hc; [|done]. cbn.
    eauto using exec_cmd_root_inv.
Qed.

Lemma root_inv_init : root_inv init_heap.
Proof. unfold root_inv; cbn. repeat split; auto. Qed.

Lemma reachable_root_inv p h :
  exec_prog p init_heap = Some h → root_inv h.
Proof. eauto using exec_prog_root_inv, root_inv_init. Qed.

(** ** Steps on views *)

Lemma rank_inj k1 k2 : rank k1 = rank k2 → k1 = k2.
Proof. by destruct k1, k2. Qed.

Lemma step_order_error k v w :
  rank k < v_rank w → step k v w = inl (Error orderError).
Proof.
  intros Hlt. unfold step.
  destruct (Z.gtb_spec (v_rank w) (rank k)); [done|lia].
Qed.

Lemma step_not_order_error k v w :
  v_rank w ≤ rank k → step k v w ≠ inl (Error orderError).
Proof.
  intros Hle. unfold step.
  destruct (Z.gtb_spec (v_rank w) (rank k)); [lia|].
  destruct k; try done; by destruct (_ >? 1).
Qed.

Lemma step_ok k v w w' :
  step k v w = inr w' →
  v_rank w ≤ rank k ∧ v_rank w' = rank k
  ∧ v_text w' = v_text w +:+ fragment (k, v)
  ∧ (nonneg w → nonneg w' ∧ (singleton k = true → counter_of k w' = 1)).
Proof.
  unfold step, nonneg.
  destruct (Z.gtb_spec (v_rank w) (rank k)) as [|Hle]; [done|].
  destruct k; cbn [singleton counter_of].
  1,2,6: case_gtb; [done|].
  all: intros [= <-]; cbn; repeat split; (done || lia).
Qed.

Lemma step_twice k v w :
  singleton k = true → v_rank w = rank k → counter_of k w = 1 →
  step k v w = inl (Error twiceTimeError).
Proof.
  intros Hs Hr Hc. unfold step. rewrite Hr.
  destruct (Z.gtb_spec (rank k) (rank k)); [lia|].
  by destruct k; cbn in Hs, Hc; try done; rewrite Hc.
Qed.

Lemma steps_snoc ps k v w :
  steps (ps ++ [(k, v)]) w
  = match steps ps w with
    | inl e => inl e
    | inr w' => step k v w'
    end.
Proof.
  revert w. induction ps as [|[k1 v1] ps IH]; intros w; cbn [steps app].
  - by destruct (step k v w).
  - by destruct (step k1 v1 w).
Qed.

Lemma steps_ok ps : ∀ w w',
  steps ps w = inr w' →
  v_rank w ≤ v_rank w'
  ∧ (∀ k, k ∈ kinds ps → rank k ≤ v_rank w')
  ∧ (nonneg w → nonneg w').
Proof.
  induction ps as [|[k v] ps IH]; intros w w'; cbn [steps].
  - intros [= <-]. split; [lia|]. split; [|done].
    intros k Hk. by apply elem_of_nil in Hk.
  - destruct (step k v w) as [|w1] eqn:Hstep; [done|]. intros Hsteps.
    apply step_ok in Hstep as (Hle & Hr & _ & Hnn).
    apply IH in Hsteps as (Hle' & Hks & Hnn').
    split; [lia|]. split; [|tauto].
    intros k' [->|Hk']%elem_of_cons; [cbn; lia|auto].
Qed.

Lemma nonneg_root_view : nonneg root_view.
Proof. by unfold nonneg. Qed.

(** The error a singleton method raises when its kind is already in the
    chain. *)
Lemma steps_second_singleton ps w k v :
  steps ps root_view = inr w →
  singleton k = true →
  k ∈ kinds ps →
  step k v w
  = inl (Error (if bool_decide (last (kinds ps) = Some k)
                then twiceTimeError else orderError)).
Proof.
  intros Hsteps Hs Hk.
  destruct ps as [|p ps _] using rev_ind.
  { by apply elem_of_nil in Hk. }
  destruct p as [k0 v0]. unfold kinds in *.
  rewrite fmap_app in Hk |- *.
  change (fst <$> [(k0, v0)]) with [k0] in Hk |- *. rewrite last_snoc.
  rewrite steps_snoc in Hsteps.
  destruct (steps ps root_view) as [|w1] eqn:Hps; [done|].
  apply steps_ok in Hps as (_ & Hks & Hnn).
  apply step_ok in Hsteps as (Hle & Hr & _ & Hnn').
  destruct (Hnn' (Hnn nonneg_root_view)) as [_ Hc].
  case_bool_decide as Hlast.
  - injection Hlast as ->. by apply step_twice; auto.
  - apply step_order_error.
    apply elem_of_app in Hk as [Hk|Hk%list_elem_of_singleton].
    + specialize (Hks k Hk).
      assert (rank k ≠ rank k0) by (intros ?%rank_inj; congruence). lia.
    + congruence.
Qed.

(** *** Chains written in rank order *)

Lemma open_after_root_view : open_after 0 root_view.
Proof. unfold open_after; cbn. lia. Qed.

Lemma step_in_order k v w last :
  open_after last w →
  (if singleton k then last <? rank k else last <=? rank k) = true →
  ∃ w', step k v w = inr w'
        ∧ v_text w' = v_text w +:+ fragment (k, v)
        ∧ open_after (rank k) w'.
Proof.
  intros (Hr & He & Hi & Hp) Hk. unfold step.
  assert (last ≤ rank k ∧ (singleton k = true → last < rank k)) as [Hle Hlt].
  { destruct (singleton k); [apply Z.ltb_lt in Hk|apply Z.leb_le in Hk];
      split; (lia || done). }
  pose proof (rank_pos k).
  destruct (Z.gtb_spec (v_rank w) (rank k)); [lia|].
  unfold open_after.
  destruct k; cbn in Hlt |- *;
    rewrite ?He, ?Hi, ?Hp by (specialize (Hlt eq_refl); lia);
    eexists; (split; [reflexivity|]); cbn; repeat split; lia || done.
Qed.

Lemma steps_in_order ps : ∀ w last,
  open_after last w →
  in_rank_order last ps = true →
  ∃ w', steps ps w = inr w' ∧ v_text w' = v_text w +:+ render ps.
Proof.
  induction ps as [|[k v] ps IH]; intros w last Hw; cbn [in_rank_order steps].
  - intros _. exists w. by rewrite append_nil_r.
  - intros [Hk Hps]%andb_true_iff.
    destruct (step_in_order k v w last Hw Hk) as (w1 & -> & Ht & Hw1).
    destruct (IH w1 _ Hw1 Hps) as (w' & -> & Ht').
    exists w'. split; [done|].
    by rewrite Ht', Ht, append_assoc.
Qed.

Lemma in_rank_order_weaken ps last last' :
  last' ≤ last → in_rank_order last ps = true → in_rank_order last' ps = true.
Proof.
  intros Hle. destruct ps as [|[k v] ps]; [done|]. cbn.
  rewrite !andb_true_iff. intros [Hk Hps]. split; [|done].
  destruct (singleton k); [apply Z.ltb_lt in Hk; apply Z.ltb_lt
                          |apply Z.leb_le in Hk; apply Z.leb_le]; lia.
Qed.

Lemma in_rank_order_opt k o last rest :
  singleton k = true → last < rank k →
  in_rank_order (rank k) rest = true →
  in_rank_order last (opt_part k o ++ rest) = true.
Proof.
  intros Hs Hlt Hrest. destruct o as [v|]; cbn.
  - rewrite Hs, Hrest, andb_true_r. by apply Z.ltb_lt.
  - apply (in_rank_order_weaken _ (rank k)); [lia|done].
Qed.

Lemma in_rank_order_repeat k vs rest : ∀ last,
  singleton k = false → last ≤ rank k →
  in_rank_order (rank k) rest = true →
  in_rank_order last (map (pair k) vs ++ rest) = true.
Proof.
  induction vs as [|v vs IH]; intros last Hs Hle Hrest; cbn.
  - by apply (in_rank_order_weaken _ (rank k)).
  - rewrite Hs, IH by (done || lia). rewrite andb_true_r. by apply Z.leb_le.
Qed.

Lemma ordered_chain_in_rank_order e i cs ats pcs pe :
  in_rank_order 0 (ordered_chain e i cs ats pcs pe) = true.
Proof.
  unfold ordered_chain.
  apply in_rank_order_opt; [done..|].
  apply in_rank_order_opt; [done..|].
  apply in_rank_order_repeat; [done..|].
  apply in_rank_order_repeat; [done..|].
  apply in_rank_order_repeat; [done..|].
  by destruct pe.
Qed.

(** ** What a call changes in the heap *)

Lemma outcome_eq {A} (m : M A) h x :
  outcome m h = x → ∃ h', m h = (h', x).
Proof.
  unfold outcome. destruct (m h) as [h' y]. cbn. intros ->. by exists h'.
Qed.

(** The two messages are the only errors a method throws. *)
Lemma call_error_kinds k this v h h' e :
  valid_ref h this = true →
  call k this v h = (h', inl e) →
  e = Error orderError ∨ e = Error twiceTimeError.
Proof.
  intros Hv. rewrite call_eq by done. unfold call_result.
  destruct (js_gt _ _); [intros [= _ <-]; by left|].
  destruct (counter k h this) as [c|]; [|done].
  destruct (_ >? 1); [|done]. intros [= _ <-]. by right.
Qed.

Lemma lookup_ref_set_order this k h r :
  r ≠ this → lookup_ref (set_order this k h) r = lookup_ref h r.
Proof.
  intros Hne. destruct r as [|m], this as [|n]; try done. cbn.
  rewrite list_lookup_alter_ne; [done|congruence].
Qed.

(** A successful call leaves every object that existed as it was, except
    that [element] changes its receiver. *)
Lemma call_frame k this v h h' b r :
  valid_ref h this = true →
  call k this v h = (h', inr b) →
  valid_ref h r = true →
  k ≠ KElement ∨ r ≠ this →
  lookup_ref h' r = lookup_ref h r.
Proof.
  intros Hv. rewrite call_eq by done. unfold call_result.
  destruct (js_gt _ _); [done|]. intros Hcall Hr Hk.
  assert (h' = alloc (built k this v h) (touch k this h)) as ->.
  { destruct (counter k h this) as [c|]; [destruct (_ >? 1)|];
      by simplify_eq. }
  destruct k; cbn [touch]; try by apply lookup_ref_alloc.
  destruct Hk as [|Hne]; [done|].
  rewrite lookup_ref_alloc by (by rewrite valid_ref_set_order).
  by apply lookup_ref_set_order.
Qed.

(** ** The claims *)

(** C1: every chain on the root builder of the shape (element?, id?, class*,
    attr*, pseudoClass*, pseudoElement?), run after any client program,
    makes all its calls without an error, and [stringify()] on the result
    returns exactly the fragments concatenated, each with the punctuation of
    its kind and nothing in between. *)
Theorem ordered_chain_stringify prog h e i cs ats pcs pe :
  exec_prog prog init_heap = Some h →
  ∃ h', chain_stringify (ordered_chain e i cs ats pcs pe) h
        = (h', inr (render (ordered_chain e i cs ats pcs pe))).
Proof.
  intros Hinv%reachable_root_inv. apply outcome_eq.
  rewrite chain_stringify_steps by done.
  destruct (steps_in_order _ _ _ open_after_root_view
              (ordered_chain_in_rank_order e i cs ats pcs pe))
    as (w & -> & ->).
  done.
Qed.

Lemma ordered_chain_stringify_witness :
  exec_prog prog_div_combine init_heap = Some heap_div_combine
  ∧ ∃ h', chain_stringify
            (ordered_chain (Some "a") (Some "main") ["c1"; "c2"]
               ["href"] ["focus"] (Some "after"))
            heap_div_combine
          = (h', inr "a#main.c1.c2[href]:focus::after").
Proof.
  split; [reflexivity|].
  apply (ordered_chain_stringify prog_div_combine heap_div_combine
           (Some "a") (Some "main") ["c1"; "c2"] ["href"] ["focus"]
           (Some "after")).
  reflexivity.
Defined.

(** C2, as the code has it: when [element], [id] or [pseudoElement] is
    called on a chain from the root builder that already contains a part of
    that kind, the call raises an error: the duplicate-singleton error when
    that part is the last one of the chain, the order-violation error when a
    part of another kind came after it. *)
Theorem second_singleton_raises prog h ps h1 b k v :
  exec_prog prog init_heap = Some h →
  run_chain Root ps h = (h1, inr b) →
  singleton k = true →
  k ∈ kinds ps →
  outcome (call k b v) h1
  = inl (Error (if bool_decide (last (kinds ps) = Some k)
                then twiceTimeError else orderError)).
Proof.
  intros Hinv%reachable_root_inv Hrun Hs Hk.
  apply run_chain_ok_view in Hrun as (Hsteps & Hinv1 & Hv1); [|done..].
  rewrite view_of_root in Hsteps by done.
  pose proof (call_step k b v h1 Hinv1 Hv1) as Hcall.
  by rewrite (steps_second_singleton ps _ k v Hsteps Hs Hk) in Hcall.
Qed.

Lemma second_singleton_raises_witness :
  exec_prog [] init_heap = Some init_heap
  ∧ run_chain Root [(KId, "x")] init_heap = (heap_id, inr (Loc 0))
  ∧ singleton KId = true
  ∧ KId ∈ kinds [(KId, "x")]
  ∧ outcome (call KId (Loc 0) "y") heap_id = inl (Error twiceTimeError).
Proof.
  do 4 (split; [reflexivity || apply list_elem_of_here|]).
  apply (second_singleton_raises [] init_heap [(KId, "x")] heap_id (Loc 0)
           KId "y");
    [reflexivity..|]. apply list_elem_of_here.
Defined.

(** C2 as stated fails: [element('a').id('x')] is built without error and
    contains an element part, yet a second [element] on it raises the
    order-violation error, not the duplicate-singleton error. *)
Lemma second_singleton_counterexample :
  ∃ h1 b,
    run_chain Root [(KElement, "a"); (KId, "x")] init_heap = (h1, inr b)
    ∧ KElement ∈ kinds [(KElement, "a"); (KId, "x")]
    ∧ outcome (call KElement b "b") h1 = inl (Error orderError)
    ∧ outcome (call KElement b "b") h1 ≠ inl (Error twiceTimeError).
Proof.
  eexists _, _. split; [reflexivity|]. split; [apply list_elem_of_here|].
  split; [reflexivity|]. discriminate.
Qed.

(** C3: on a chain built from the root builder, a call whose rank is
    strictly below the rank of the last part raises the order-violation
    error (and leaves the heap as it is); a call of the same rank as the last
    part does not raise the order-violation error. *)
Theorem lower_rank_raises_order_error prog h ps k0 v0 h1 b k v :
  exec_prog prog init_heap = Some h →
  run_chain Root (ps ++ [(k0, v0)]) h = (h1, inr b) →
  (rank k < rank k0 → call k b v h1 = (h1, inl (Error orderError)))
  ∧ (rank k = rank k0 →
     outcome (call k b v) h1 ≠ inl (Error orderError)).
Proof.
  intros Hinv%reachable_root_inv Hrun.
  apply run_chain_ok_view in Hrun as (Hsteps & Hinv1 & Hv1); [|done..].
  rewrite steps_snoc in Hsteps.
  destruct (steps ps _) as [|w1]; [done|].
  apply step_ok in Hsteps as (_ & Hr & _).
  split; intros Hk.
  - rewrite call_eq by done. unfold call_result.
    rewrite js_gt_eff_rank. change (eff_rank _) with (v_rank (view_of h1 b)).
    rewrite Hr. case_gtb; [done|lia].
  - pose proof (call_step k b v h1 Hinv1 Hv1) as Hcall.
    pose proof (step_not_order_error k v (view_of h1 b)) as Hne.
    destruct (step k v (view_of h1 b)) as [e|w].
    + rewrite Hcall. intros [= ->]. apply Hne; [lia|done].
    + destruct Hcall as (h' & Hcall & _). unfold outcome. by rewrite Hcall.
Qed.

(** [class('x').element('a')] and [id('x').element('a')] fail with the
    order-violation error; [class('x').class('y')] does not. *)
Lemma lower_rank_raises_order_error_witness :
  exec_prog [] init_heap = Some init_heap
  ∧ run_chain Root ([] ++ [(KClass, "x")]) init_heap = (heap_class, inr (Loc 0))
  ∧ run_chain Root ([] ++ [(KId, "x")]) init_heap = (heap_id, inr (Loc 0))
  ∧ call KElement (Loc 0) "a" heap_class
    = (heap_class, inl (Error orderError))
  ∧ call KElement (Loc 0) "a" heap_id = (heap_id, inl (Error orderError))
  ∧ outcome (call KClass (Loc 0) "y") heap_class ≠ inl (Error orderError).
Proof.
  do 3 (split; [reflexivity|]). split; [|split].
  - apply (lower_rank_raises_order_error [] init_heap [] KClass "x"
             heap_class (Loc 0) KElement "a"); [reflexivity..|]. cbn; lia.
  - apply (lower_rank_raises_order_error [] init_heap [] KId "x"
             heap_id (Loc 0) KElement "a"); [reflexivity..|]. cbn; lia.
  - apply (lower_rank_raises_order_error [] init_heap [] KClass "x"
             heap_class (Loc 0) KClass "y"); reflexivity.
Defined.

(** C4: for any two builders [a] and [b] that exist and any combinator
    string [c], [combine(a, c, b).stringify()] is [a.stringify()], one space,
    [c], one space, [b.stringify()], whatever [c] contains; [a] and [b] still
    stringify to the same texts afterwards. *)
Theorem combine_stringify h a c b sa sb :
  valid_ref h a = true →
  valid_ref h b = true →
  outcome (stringify a) h = inr sa →
  outcome (stringify b) h = inr sb →
  outcome (ab ← combine a c b;
           s ← stringify ab;
           sa' ← stringify a;
           sb' ← stringify b;
           mret (s, sa', sb')) h
  = inr (sa +:+ " " +:+ c +:+ " " +:+ sb, sa, sb).
Proof.
  intros Ha Hb [= <-] [= <-]. unfold outcome, mbind, M_bind.
  rewrite combine_eq by done. unfold stringify, read, mret, M_ret. cbn [snd].
  by rewrite get_resultString_new, !get_resultString_alloc.
Qed.

Lemma combine_stringify_witness :
  valid_ref heap_div_table (Loc 0) = true
  ∧ valid_ref heap_div_table (Loc 2) = true
  ∧ outcome (stringify (Loc 0)) heap_div_table = inr "div"
  ∧ outcome (stringify (Loc 2)) heap_div_table = inr "table#data"
  ∧ outcome (ab ← combine (Loc 0) "+" (Loc 2);
             s ← stringify ab;
             sa' ← stringify (Loc 0);
             sb' ← stringify (Loc 2);
             mret (s, sa', sb')) heap_div_table
    = inr ("div + table#data", "div", "table#data").
Proof.
  do 4 (split; [reflexivity|]).
  apply (combine_stringify heap_div_table (Loc 0) "+" (Loc 2)
           "div" "table#data");
    reflexivity.
Defined.

(** C5 fails on the code: [element] assigns [this.order = 1] on its
    receiver.  The root builder has no [order] at the start; after
    [cssSelectorBuilder.element('a')] returns, the root has [order = 1]. *)
Theorem element_writes_order_on_receiver :
  root_order (root init_heap) = None
  ∧ ∃ h' b, element Root "a" init_heap = (h', inr b)
            ∧ root_order (root h') = Some 1
            ∧ lookup_ref h' Root ≠ lookup_ref init_heap Root.
Proof.
  split; [reflexivity|]. eexists _, _.
  split; [reflexivity|]. split; [reflexivity|]. discriminate.
Qed.

(** The same write on a builder made by [combine]: it has no own [order]
    before [element] is called on it and [order = 1] after. *)
Example element_writes_order_on_combined :
  order (own heap_div_combine 1) = None
  ∧ order (own (fst (element (Loc 1) "a" heap_div_combine)) 1) = Some 1.
Proof. split; reflexivity. Qed.

(** C6: when a part-adding call on a builder that exists raises an error,
    the caller gets the error and no builder, and every object that existed
    before the call, the receiver and the root among them, has exactly the
    own properties it had; the receiver's text in particular is unchanged. *)
Theorem error_leaves_heap k this v h h' e :
  valid_ref h this = true →
  call k this v h = (h', inl e) →
  (∀ r, valid_ref h r = true → lookup_ref h' r = lookup_ref h r)
  ∧ get_resultString h' this = get_resultString h this.
Proof.
  intros Hv. rewrite call_eq by done. unfold call_result.
  destruct (js_gt _ _); [by intros [= <- _]|].
  destruct (counter k h this) as [c|]; [|done].
  destruct (_ >? 1); [|done]. intros [= <- _].
  split; [|by apply get_resultString_alloc].
  intros r Hr. by apply lookup_ref_alloc.
Qed.

Lemma error_leaves_heap_witness :
  valid_ref heap_div (Loc 0) = true
  ∧ call KElement (Loc 0) "b" heap_div
    = (fst (element (Loc 0) "b" heap_div), inl (Error twiceTimeError))
  ∧ (∀ r, valid_ref heap_div r = true →
          lookup_ref (fst (element (Loc 0) "b" heap_div)) r
          = lookup_ref heap_div r)
  ∧ get_resultString (fst (element (Loc 0) "b" heap_div)) (Loc 0)
    = get_resultString heap_div (Loc 0).
Proof.
  do 2 (split; [reflexivity|]).
  apply (error_leaves_heap KElement (Loc 0) "b" heap_div
           (fst (element (Loc 0) "b" heap_div)) (Error twiceTimeError));
    reflexivity.
Defined.

(** C7: [combine] returns a builder for every pair of builders and every
    combinator string, and [stringify] returns the [resultString] its
    receiver reads; neither has an error result. *)
Theorem combine_stringify_never_throw h s1 c s2 this :
  (∃ h' b, combine s1 c s2 h = (h', inr b))
  ∧ stringify this h = (h, inr (get_resultString h this)).
Proof. split; [|done]. unfold combine. run_method. by eexists _, _. Qed.

(** C8: a chain run on the root builder after any client program yields
    what it yields in the initial state: the same string from [stringify()],
    or the same error. *)
Theorem chain_outcome_independent prog h ps :
  exec_prog prog init_heap = Some h →
  outcome (chain_stringify ps) h = outcome (chain_stringify ps) init_heap.
Proof.
  intros Hinv%reachable_root_inv.
  by rewrite !chain_stringify_steps by auto using root_inv_init.
Qed.

Lemma chain_outcome_independent_witness :
  exec_prog prog_div_combine init_heap = Some heap_div_combine
  ∧ outcome (chain_stringify [(KId, "main"); (KClass, "c")]) heap_div_combine
    = outcome (chain_stringify [(KId, "main"); (KClass, "c")]) init_heap.
Proof.
  split; [reflexivity|].
  apply (chain_outcome_independent prog_div_combine heap_div_combine
           [(KId, "main"); (KClass, "c")]).
  reflexivity.
Defined.

(** C9: [stringify()] on the root builder returns the empty string at the
    start and after any client program of part-adding and [combine] calls. *)
Theorem root_stringify_empty prog h :
  exec_prog prog init_heap = Some h →
  stringify Root h = (h, inr "").
Proof.
  intros (Hs & _)%reachable_root_inv.
  unfold stringify, read. cbn. by rewrite Hs.
Qed.

Lemma root_stringify_empty_witness :
  exec_prog prog_div_combine init_heap = Some heap_div_combine
  ∧ stringify Root heap_div_combine = (heap_div_combine, inr "").
Proof.
  split; [reflexivity|].
  apply (root_stringify_empty prog_div_combine heap_div_combine).
  reflexivity.
Defined.

(** * Further properties of the builder *)

(** ** Chains judged by their kinds *)

Lemma at_rank_root_view : at_rank 0 root_view.
Proof. by unfold at_rank. Qed.

Lemma step_at_rank k v w last :
  at_rank last w →
  if last >? rank k then step k v w = inl (Error orderError)
  else if singleton k && (last =? rank k)
  then step k v w = inl (Error twiceTimeError)
  else ∃ w', step k v w = inr w'
             ∧ v_text w' = v_text w +:+ fragment (k, v)
             ∧ at_rank (rank k) w'.
Proof.
  intros (Hr & He & Hi & Hp). pose proof (rank_pos k).
  unfold step. rewrite Hr.
  destruct (Z.gtb_spec last (rank k)), (Z.gtb_spec (Z.max 1 last) (rank k));
    try lia; [done|].
  unfold at_rank.
  destruct k; cbn [singleton andb rank] in *; rewrite ?He, ?Hi, ?Hp;
    repeat case_match; try lia; try done;
    eexists; (split; [reflexivity|]); cbn; split; done.
Qed.

Lemma steps_first_error ps : ∀ w last,
  at_rank last w →
  match first_error last ps with
  | Some e => steps ps w = inl e
  | None => ∃ w', steps ps w = inr w' ∧ v_text w' = v_text w +:+ render ps
  end.
Proof.
  induction ps as [|[k v] ps IH]; intros w last Hw; cbn [first_error steps].
  - exists w. by rewrite append_nil_r.
  - pose proof (step_at_rank k v w last Hw) as Hstep.
    destruct (last >? rank k); [by rewrite Hstep|].
    destruct (singleton k && (last =? rank k)); [by rewrite Hstep|].
    destruct Hstep as (w1 & -> & Ht & Hw1).
    specialize (IH w1 _ Hw1).
    destruct (first_error (rank k) ps); [done|].
    destruct IH as (w' & -> & Ht'). exists w'. split; [done|].
    by rewrite Ht', Ht, append_assoc.
Qed.

Lemma first_error_in_rank_order ps : ∀ last,
  first_error last ps = None ↔ in_rank_order last ps = true.
Proof.
  induction ps as [|[k v] ps IH]; intros last; cbn; [done|].
  rewrite andb_true_iff, <- IH.
  destruct (Z.gtb_spec last (rank k)), (Z.eqb_spec last (rank k)),
    (singleton k); cbn;
    rewrite ?Z.ltb_lt, ?Z.leb_le, ?Z.ltb_ge, ?Z.leb_gt; split;
    try done; try lia; try (intros [? ?]; lia || done); split; (lia || done).
Qed.

Lemma chain_from_at_rank ps this h last :
  root_inv h →
  valid_ref h this = true →
  at_rank last (view_of h this) →
  outcome (chain_stringify_from this ps) h
  = match first_error last ps with
    | Some e => inl e
    | None => inr (get_resultString h this +:+ render ps)
    end.
Proof.
  intros Hinv Hv Hw.
  pose proof (run_chain_steps ps this h Hinv Hv) as Hrun.
  pose proof (steps_first_error ps _ _ Hw) as Hsteps.
  unfold outcome, chain_stringify_from, mbind, M_bind in *.
  destruct (first_error last ps) as [e|].
  - rewrite Hsteps in Hrun.
    by destruct (run_chain this ps h) as [h1 [e1|b1]]; cbn in Hrun; simplify_eq.
  - destruct Hsteps as (w' & Hs & Ht). rewrite Hs in Hrun.
    destruct Hrun as (h1 & b & -> & <- & _). cbn. f_equal. exact Ht.
Qed.

(** X1: a chain run on the root builder after any client program ends as
    its kinds alone decide, at its first offending part: with the
    order-violation error if that part's rank is lower than the rank of the
    part before it, with the duplicate error if it is an [element], [id] or
    [pseudoElement] that directly follows a part of its own kind; a chain
    without such a part returns the concatenated fragments. *)
Theorem chain_stringify_first_error prog h ps :
  exec_prog prog init_heap = Some h →
  outcome (chain_stringify ps) h
  = match first_error 0 ps with
    | Some e => inl e
    | None => inr (render ps)
    end.
Proof.
  intros Hinv%reachable_root_inv.
  pose proof (chain_from_at_rank ps Root h 0 Hinv eq_refl) as H.
  rewrite view_of_root in H by done. specialize (H at_rank_root_view).
  destruct Hinv as (Hs & _). cbn [get_resultString] in H. rewrite Hs in H.
  exact H.
Qed.

Lemma chain_stringify_first_error_witness :
  exec_prog prog_div_combine init_heap = Some heap_div_combine
  ∧ outcome (chain_stringify [(KId, "a"); (KClass, "b"); (KId, "c")])
      heap_div_combine
    = inl (Error orderError).
Proof.
  split; [reflexivity|].
  apply (chain_stringify_first_error prog_div_combine heap_div_combine
           [(KId, "a"); (KClass, "b"); (KId, "c")]).
  reflexivity.
Defined.

(** X2: after any client program, a chain on the root builder returns a
    string exactly when its ranks never go down and no [element], [id] or
    [pseudoElement] repeats, and the string is then the concatenation of its
    fragments. *)
Theorem chain_accepted_iff_in_rank_order prog h ps s :
  exec_prog prog init_heap = Some h →
  outcome (chain_stringify ps) h = inr s
  ↔ in_rank_order 0 ps = true ∧ s = render ps.
Proof.
  intros Hinv%reachable_root_inv.
  pose proof (chain_from_at_rank ps Root h 0 Hinv eq_refl) as H.
  rewrite view_of_root in H by done. specialize (H at_rank_root_view).
  destruct Hinv as (Hs & _). cbn [get_resultString] in H. rewrite Hs in H.
  unfold chain_stringify_from in H. fold (chain_stringify ps) in H.
  rewrite H, <- first_error_in_rank_order.
  destruct (first_error 0 ps); split; try done.
  - by intros [? _].
  - by intros [= <-].
  - by intros [_ ->].
Qed.

Lemma chain_accepted_iff_in_rank_order_witness :
  exec_prog prog_div_combine init_heap = Some heap_div_combine
  ∧ (outcome (chain_stringify [(KElement, "a"); (KClass, "b")])
       heap_div_combine = inr "a.b"
     ↔ in_rank_order 0 [(KElement, "a"); (KClass, "b")] = true
       ∧ "a.b" = render [(KElement, "a"); (KClass, "b")]).
Proof.
  split; [reflexivity|].
  apply (chain_accepted_iff_in_rank_order prog_div_combine heap_div_combine
           [(KElement, "a"); (KClass, "b")] "a.b").
  reflexivity.
Defined.

(** ** What stays the same for the builders that exist *)

Lemma valid_ref_alloc o h r :
  valid_ref h r = true → valid_ref (alloc o h) r = true.
Proof.
  destruct r as [|n]; [done|]. rewrite !valid_ref_Loc. cbn.
  rewrite length_app. lia.
Qed.

Lemma valid_ref_touch k this h r :
  valid_ref (touch k this h) r = valid_ref h r.
Proof. destruct k; cbn [touch]; auto using valid_ref_set_order. Qed.

Lemma get_order_alloc o h this :
  valid_ref h this = true →
  get_order (alloc o h) this = get_order h this.
Proof.
  destruct this as [|m]; [done|]. rewrite valid_ref_Loc. intros Hm.
  unfold get_order. by rewrite (own_alloc_old h).
Qed.

Lemma view_of_alloc o h r :
  valid_ref h r = true → view_of (alloc o h) r = view_of h r.
Proof.
  intros Hr. unfold view_of.
  by rewrite (get_resultString_alloc h), (get_elementOrder_alloc h),
    (get_idOrder_alloc h), (get_pseudoOrder_alloc h), get_order_alloc.
Qed.

(** [set_order] leaves the other four properties of every object alone. *)
Lemma own_set_order this k h m :
  resultString (own (set_order this k h) m) = resultString (own h m)
  ∧ elementOrder (own (set_order this k h) m) = elementOrder (own h m)
  ∧ idOrder (own (set_order this k h) m) = idOrder (own h m)
  ∧ pseudoOrder (own (set_order this k h) m) = pseudoOrder (own h m).
Proof.
  destruct this as [|n]; [done|]. unfold own; cbn.
  destruct (decide (n = m)) as [->|Hne].
  - rewrite list_lookup_alter_eq. by destruct (objs h !! m).
  - by rewrite list_lookup_alter_ne.
Qed.

Lemma root_set_order_Loc n k h : root (set_order (Loc n) k h) = root h.
Proof. done. Qed.

Lemma eff_rank_passed o : js_gt o 1 = false → eff_rank o = 1.
Proof.
  destruct o as [x|]; [|done]. cbn.
  destruct (Z.gtb_spec x 1); [done|]. lia.
Qed.

(** When the order check of [element] has passed on [this], writing
    [this.order = 1] changes no view: the receiver's rank already counted as
    1, and so did the rank of every object that reads [order] from it. *)
Lemma view_of_set_order this h r :
  valid_ref h this = true →
  js_gt (get_order h this) 1 = false →
  view_of (set_order this 1 h) r = view_of h r.
Proof.
  intros Hv Hpass%eff_rank_passed. unfold view_of.
  assert (get_resultString (set_order this 1 h) r = get_resultString h r
          ∧ get_elementOrder (set_order this 1 h) r = get_elementOrder h r
          ∧ get_idOrder (set_order this 1 h) r = get_idOrder h r
          ∧ get_pseudoOrder (set_order this 1 h) r = get_pseudoOrder h r)
    as (-> & -> & -> & ->).
  { destruct r as [|m]; [by destruct this|].
    destruct (own_set_order this 1 h m) as (Hs & He & Hi & Hp).
    unfold get_resultString, get_elementOrder, get_idOrder, get_pseudoOrder.
    rewrite Hs, He, Hi, Hp. by destruct this. }
  f_equal.
  destruct this as [|n], r as [|m]; cbn in Hpass |- *; try done.
  - unfold own; cbn. destruct (order _); [done|]. by rewrite Hpass.
  - apply valid_ref_Loc in Hv.
    apply lookup_lt_is_Some_2 in Hv as [o Ho].
    unfold own in *; cbn.
    destruct (decide (n = m)) as [->|Hne].
    + rewrite list_lookup_alter_eq, Ho in *. cbn in *. by rewrite Hpass.
    + by rewrite list_lookup_alter_ne.
Qed.

Lemma view_of_touch k this h r :
  valid_ref h this = true →
  js_gt (get_order h this) (rank k) = false →
  view_of (touch k this h) r = view_of h r.
Proof. destruct k; cbn [touch]; auto using view_of_set_order. Qed.

Lemma call_keeps_views k this v h r :
  valid_ref h this = true →
  valid_ref h r = true →
  valid_ref (fst (call k this v h)) r = true
  ∧ view_of (fst (call k this v h)) r = view_of h r.
Proof.
  intros Hv Hr. rewrite call_eq by done. unfold call_result.
  destruct (js_gt _ _) eqn:Hpass; [done|].
  assert (valid_ref (alloc (built k this v h) (touch k this h)) r = true
          ∧ view_of (alloc (built k this v h) (touch k this h)) r
            = view_of h r) as Hok.
  { split.
    - apply valid_ref_alloc. by rewrite valid_ref_touch.
    - rewrite view_of_alloc by (by rewrite valid_ref_touch).
      by apply view_of_touch. }
  destruct (counter k h this) as [c|]; [|done].
  destruct (_ >? 1); [|done]. cbn [fst].
  split; [by apply valid_ref_alloc|by apply view_of_alloc].
Qed.

Lemma exec_cmd_keeps_views c h h' r :
  exec_cmd c h = Some h' →
  valid_ref h r = true →
  valid_ref h' r = true ∧ view_of h' r = view_of h r.
Proof.
  destruct c as [this k v|s1 t s2]; cbn [exec_cmd].
  - destruct (valid_ref h this) eqn:Hv; [|done].
    intros [= <-] Hr. by apply call_keeps_views.
  - destruct (valid_ref h s1) eqn:H1, (valid_ref h s2) eqn:H2; try done.
    cbn [andb]. rewrite combine_eq by done. intros [= <-] Hr. cbn [fst].
    split; [by apply valid_ref_alloc|by apply view_of_alloc].
Qed.

(** X3: whatever calls a client makes, failing ones included, every builder
    that existed before them still exists, stringifies to the same text, and
    shows the same counters and the same effective rank to the methods. *)
Theorem program_keeps_builders p : ∀ h h' r,
  exec_prog p h = Some h' →
  valid_ref h r = true →
  valid_ref h' r = true
  ∧ get_resultString h' r = get_resultString h r
  ∧ view_of h' r = view_of h r.
Proof.
  induction p as [|c p IH]; intros h h' r; cbn [exec_prog].
  - by intros [= <-].
  - destruct (exec_cmd c h) as [h1|] eqn:Hc; [|done]. cbn. intros Hp Hr.
    destruct (exec_cmd_keeps_views c h h1 r Hc Hr) as (Hr1 & Hv1).
    destruct (IH _ _ _ Hp Hr1) as (Hr' & Hs' & Hv').
    split; [done|]. rewrite Hv', Hv1. split; [|done].
    change (v_text (view_of h' r) = v_text (view_of h r)). by rewrite Hv', Hv1.
Qed.

Lemma program_keeps_builders_witness :
  exec_prog prog_more heap_div
  = Some (fst (element Root "y" (fst (element (Loc 0) "x" heap_div))))
  ∧ valid_ref heap_div (Loc 0) = true
  ∧ valid_ref (fst (element Root "y" (fst (element (Loc 0) "x" heap_div))))
      (Loc 0) = true
  ∧ get_resultString
      (fst (element Root "y" (fst (element (Loc 0) "x" heap_div)))) (Loc 0)
    = get_resultString heap_div (Loc 0)
  ∧ view_of (fst (element Root "y" (fst (element (Loc 0) "x" heap_div))))
      (Loc 0)
    = view_of heap_div (Loc 0).
Proof.
  do 2 (split; [reflexivity|]).
  apply (program_keeps_builders prog_more heap_div
           (fst (element Root "y" (fst (element (Loc 0) "x" heap_div))))
           (Loc 0));
    reflexivity.
Defined.

(** X4: a builder can be the start of any number of chains: what a chain
    from an existing builder yields (string or error) is the same before and
    after any other calls the client makes. *)
Theorem chain_from_builder_independent prog h p h' r ps :
  exec_prog prog init_heap = Some h →
  exec_prog p h = Some h' →
  valid_ref h r = true →
  outcome (chain_stringify_from r ps) h'
  = outcome (chain_stringify_from r ps) h.
Proof.
  intros Hinv%reachable_root_inv Hp Hr.
  pose proof (exec_prog_root_inv p h h' Hp Hinv) as Hinv'.
  destruct (program_keeps_builders p h h' r Hp Hr) as (Hr' & _ & Hview).
  pose proof (run_chain_steps ps r h Hinv Hr) as H1.
  pose proof (run_chain_steps ps r h' Hinv' Hr') as H2.
  rewrite Hview in H2.
  unfold outcome, chain_stringify_from, mbind, M_bind in *.
  destruct (steps ps (view_of h r)) as [e|w].
  - destruct (run_chain r ps h) as [? [?|?]], (run_chain r ps h') as [? [?|?]];
      cbn in *; by simplify_eq.
  - destruct H1 as (h1 & b1 & -> & <- & _), H2 as (h2 & b2 & -> & Hw & _).
    cbn. f_equal.
    change (v_text (view_of h2 b2) = v_text (view_of h1 b1)). by rewrite Hw.
Qed.

Lemma chain_from_builder_independent_witness :
  exec_prog prog_div init_heap = Some heap_div
  ∧ exec_prog prog_more heap_div
    = Some (fst (element Root "y" (fst (element (Loc 0) "x" heap_div))))
  ∧ valid_ref heap_div (Loc 0) = true
  ∧ outcome (chain_stringify_from (Loc 0) [(KId, "i"); (KClass, "c")])
      (fst (element Root "y" (fst (element (Loc 0) "x" heap_div))))
    = outcome (chain_stringify_from (Loc 0) [(KId, "i"); (KClass, "c")])
        heap_div.
Proof.
  do 3 (split; [reflexivity|]).
  apply (chain_from_builder_independent prog_div heap_div prog_more
           (fst (element Root "y" (fst (element (Loc 0) "x" heap_div))))
           (Loc 0) [(KId, "i"); (KClass, "c")]);
    reflexivity.
Defined.

Lemma steps_text ps : ∀ w w',
  steps ps w = inr w' → v_text w' = v_text w +:+ render ps.
Proof.
  induction ps as [|[k v] ps IH]; intros w w'; cbn [steps render].
  - intros [= <-]. by rewrite append_nil_r.
  - destruct (step k v w) as [|w1] eqn:Hstep; [done|]. intros Hsteps.
    apply step_ok in Hstep as (_ & _ & Ht & _).
    by rewrite (IH _ _ Hsteps), Ht, append_assoc.
Qed.

(** X5: a chain that succeeds on any existing builder returns a builder
    whose text is the receiver's text followed by the chain's fragments. *)
Theorem chain_appends_render prog h this ps h' b :
  exec_prog prog init_heap = Some h →
  valid_ref h this = true →
  run_chain this ps h = (h', inr b) →
  get_resultString h' b = get_resultString h this +:+ render ps.
Proof.
  intros Hinv%reachable_root_inv Hv Hrun.
  apply run_chain_ok_view in Hrun as (Hsteps & _); [|done..].
  by apply steps_text in Hsteps.
Qed.

Lemma chain_appends_render_witness :
  exec_prog prog_div init_heap = Some heap_div
  ∧ valid_ref heap_div (Loc 0) = true
  ∧ run_chain (Loc 0) [(KId, "i"); (KClass, "c")] heap_div
    = (fst (run_chain (Loc 0) [(KId, "i"); (KClass, "c")] heap_div),
       inr (Loc 2))
  ∧ get_resultString
      (fst (run_chain (Loc 0) [(KId, "i"); (KClass, "c")] heap_div)) (Loc 2)
    = get_resultString heap_div (Loc 0)
        +:+ render [(KId, "i"); (KClass, "c")].
Proof.
  do 3 (split; [reflexivity|]).
  apply (chain_appends_render prog_div heap_div (Loc 0)
           [(KId, "i"); (KClass, "c")]
           (fst (run_chain (Loc 0) [(KId, "i"); (KClass, "c")] heap_div))
           (Loc 2));
    reflexivity.
Defined.

(** X6: the builder [combine] returns takes parts like the root builder,
    whatever its two operands contain: a chain on it ends as its kinds decide
    from rank 0, and when accepted stringifies to the combined text followed
    by the chain's fragments. *)
Theorem chain_on_combined prog h a c b ps :
  exec_prog prog init_heap = Some h →
  valid_ref h a = true →
  valid_ref h b = true →
  outcome (ab ← combine a c b; chain_stringify_from ab ps) h
  = match first_error 0 ps with
    | Some e => inl e
    | None =>
        inr ((get_resultString h a +:+ " " +:+ c +:+ " "
                +:+ get_resultString h b) +:+ render ps)
    end.
Proof.
  intros Hinv%reachable_root_inv Ha Hb.
  unfold outcome, mbind at 1, M_bind at 1. rewrite combine_eq by done.
  set (o := BuilderObj _ None None None None).
  assert (Hview : view_of (alloc o h) (Loc (length (objs h)))
                  = View (get_resultString h a +:+ " " +:+ c +:+ " "
                            +:+ get_resultString h b) 0 0 0 1).
  { unfold view_of.
    rewrite (get_resultString_new h), (get_elementOrder_new h),
      (get_idOrder_new h), (get_pseudoOrder_new h), (get_order_new h) by done.
    destruct Hinv as (_ & -> & -> & -> & [-> | ->]); done. }
  pose proof (chain_from_at_rank ps (Loc (length (objs h))) (alloc o h) 0
                (root_inv_alloc _ _ Hinv) (valid_ref_new h _ eq_refl o)) as H.
  rewrite Hview in H. specialize (H ltac:(by unfold at_rank)).
  unfold outcome in H. rewrite H.
  destruct (first_error 0 ps); [done|]. f_equal. f_equal.
  change (v_text (view_of (alloc o h) (Loc (length (objs h)))) = 
          get_resultString h a +:+ " " +:+ c +:+ " " +:+ get_resultString h b).
  by rewrite Hview.
Qed.

Lemma chain_on_combined_witness :
  exec_prog prog_div_table init_heap = Some heap_div_table
  ∧ valid_ref heap_div_table (Loc 0) = true
  ∧ valid_ref heap_div_table (Loc 2) = true
  ∧ outcome (ab ← combine (Loc 0) "+" (Loc 2);
             chain_stringify_from ab [(KElement, "p"); (KId, "q")])
      heap_div_table
    = inr "div + table#datap#q".
Proof.
  do 3 (split; [reflexivity|]).
  apply (chain_on_combined prog_div_table heap_div_table (Loc 0) "+" (Loc 2)
           [(KElement, "p"); (KId, "q")]);
    reflexivity.
Defined.

(** X7: nesting [combine] to the left or to the right gives the same text:
    combine(combine(a, c1, b), c2, d) and combine(a, c1, combine(b, c2, d))
    stringify alike. *)
Theorem combine_nesting h a c1 b c2 d :
  valid_ref h a = true →
  valid_ref h b = true →
  valid_ref h d = true →
  outcome (ab ← combine a c1 b; x ← combine ab c2 d; stringify x) h
  = outcome (bd ← combine b c2 d; x ← combine a c1 bd; stringify x) h.
Proof.
  intros Ha Hb Hd. unfold outcome, mbind, M_bind.
  rewrite (combine_eq a c1 b h), (combine_eq b c2 d h) by done.
  rewrite !combine_eq
    by first [by apply valid_ref_new | by apply valid_ref_alloc].
  unfold stringify, read. cbn [snd].
  rewrite !(get_resultString_new (alloc _ h)) by done.
  rewrite !(get_resultString_new h), !(get_resultString_alloc h) by done.
  cbn. f_equal. by rewrite !append_assoc.
Qed.

Lemma combine_nesting_witness :
  valid_ref heap_div_table (Loc 0) = true
  ∧ valid_ref heap_div_table (Loc 1) = true
  ∧ valid_ref heap_div_table (Loc 2) = true
  ∧ outcome (ab ← combine (Loc 0) "+" (Loc 1);
             x ← combine ab "~" (Loc 2);
             stringify x) heap_div_table
    = outcome (bd ← combine (Loc 1) "~" (Loc 2);
               x ← combine (Loc 0) "+" bd;
               stringify x) heap_div_table.
Proof.
  do 3 (split; [reflexivity|]).
  apply (combine_nesting heap_div_table (Loc 0) "+" (Loc 1) "~" (Loc 2));
    reflexivity.
Defined.

(** X8: a successful part-adding call returns a reference to an object that
    did not exist before, and leaves every object that existed as it was,
    except that [element] sets [order] to 1 on its receiver. *)
Theorem call_changes_only_order k this v h h' b :
  valid_ref h this = true →
  call k this v h = (h', inr b) →
  valid_ref h b = false
  ∧ valid_ref h' b = true
  ∧ ∀ r, valid_ref h r = true →
         lookup_ref h' r
         = lookup_ref (if decide (k = KElement) then set_order this 1 h else h) r.
Proof.
  intros Hv. rewrite call_eq by done. unfold call_result.
  destruct (js_gt _ _); [done|]. intros Hcall.
  assert (h' = alloc (built k this v h) (touch k this h)
          ∧ b = Loc (length (objs h))) as [-> ->].
  { destruct (counter k h this) as [c|]; [destruct (_ >? 1)|];
      by simplify_eq. }
  split; [|split].
  - cbn. apply bool_decide_eq_false. lia.
  - rewrite <- (length_objs_touch k this h). by apply valid_ref_new.
  - intros r Hr. rewrite lookup_ref_alloc by (by rewrite valid_ref_touch).
    by destruct k.
Qed.

Lemma call_changes_only_order_witness :
  valid_ref heap_div_combine (Loc 1) = true
  ∧ call KElement (Loc 1) "a" heap_div_combine
    = (fst (element (Loc 1) "a" heap_div_combine), inr (Loc 2))
  ∧ valid_ref heap_div_combine (Loc 2) = false
  ∧ valid_ref (fst (element (Loc 1) "a" heap_div_combine)) (Loc 2) = true
  ∧ ∀ r, valid_ref heap_div_combine r = true →
         lookup_ref (fst (element (Loc 1) "a" heap_div_combine)) r
         = lookup_ref (set_order (Loc 1) 1 heap_div_combine) r.
Proof.
  do 2 (split; [reflexivity|]).
  apply (call_changes_only_order KElement (Loc 1) "a" heap_div_combine
           (fst (element (Loc 1) "a" heap_div_combine)) (Loc 2));
    reflexivity.
Defined.

(** X9: a part-adding call raises the order-violation error exactly when
    [this.order] is greater than the method's rank, the duplicate error
    exactly when that check passes and the method's counter on the receiver
    is at least 1, and never any other error. *)
Theorem call_error_conditions k this v h :
  valid_ref h this = true →
  (outcome (call k this v) h = inl (Error orderError)
   ↔ js_gt (get_order h this) (rank k) = true)
  ∧ (outcome (call k this v) h = inl (Error twiceTimeError)
     ↔ js_gt (get_order h this) (rank k) = false
       ∧ ∃ c, counter k h this = Some c ∧ 1 ≤ c)
  ∧ ∀ e, outcome (call k this v) h = inl e →
         e = Error orderError ∨ e = Error twiceTimeError.
Proof.
  intros Hv. unfold outcome. rewrite call_eq by done. unfold call_result.
  destruct (js_gt _ _).
  { cbn [snd]. split; [by split|]. split; [|intros e [= <-]; by left].
    split; [discriminate|by intros [? _]]. }
  destruct (counter k h this) as [c|].
  - destruct (Z.gtb_spec (c + 1) 1); cbn [snd].
    + split; [split; discriminate|]. split; [|intros e [= <-]; by right].
      split; [|done]. intros _. split; [done|]. exists c. split; [done|lia].
    + split; [by split|]. split; [|done].
      split; [done|]. intros (_ & c' & [= <-] & ?). lia.
  - cbn [snd]. split; [by split|]. split; [|done].
    split; [done|]. by intros (_ & c' & ? & _).
Qed.

Lemma call_error_conditions_witness :
  valid_ref heap_id (Loc 0) = true
  ∧ (outcome (call KElement (Loc 0) "a") heap_id = inl (Error orderError)
     ↔ js_gt (get_order heap_id (Loc 0)) (rank KElement) = true)
  ∧ (outcome (call KElement (Loc 0) "a") heap_id
       = inl (Error twiceTimeError)
     ↔ js_gt (get_order heap_id (Loc 0)) (rank KElement) = false
       ∧ ∃ c, counter KElement heap_id (Loc 0) = Some c ∧ 1 ≤ c)
  ∧ ∀ e, outcome (call KElement (Loc 0) "a") heap_id = inl e →
         e = Error orderError ∨ e = Error twiceTimeError.
Proof.
  split; [reflexivity|].
  apply (call_error_conditions KElement (Loc 0) "a" heap_id).
  reflexivity.
Defined.

(** X10: after any client program the root still has the literal's
    [resultString] and counters, and its [order] is undefined or 1. *)
Theorem root_after_program prog h :
  exec_prog prog init_heap = Some h →
  root_resultString (root h) = ""
  ∧ root_elementOrder (root h) = 0
  ∧ root_idOrder (root h) = 0
  ∧ root_pseudoOrder (root h) = 0
  ∧ (root_order (root h) = None ∨ root_order (root h) = Some 1).
Proof. apply reachable_root_inv. Qed.

Lemma root_after_program_witness :
  exec_prog prog_div_combine init_heap = Some heap_div_combine
  ∧ root_resultString (root heap_div_combine) = ""
  ∧ root_elementOrder (root heap_div_combine) = 0
  ∧ root_idOrder (root heap_div_combine) = 0
  ∧ root_pseudoOrder (root heap_div_combine) = 0
  ∧ (root_order (root heap_div_combine) = None
     ∨ root_order (root heap_div_combine) = Some 1).
Proof.
  split; [reflexivity|].
  apply (root_after_program prog_div_combine heap_div_combine).
  reflexivity.
Defined.

(** * The round trip through JSON *)

Section json_facts.
Context {NM : NumberModel} {NL : NumberLaws}.
Local Open Scope N_scope.

(** ** String literals *)

Lemma hex_value_digit d : d < 16 → hex_value (hex_digit d) = Some d.
Proof.
  intros Hd.
  assert (d ∈ (N.of_nat <$> seq 0 16)) as Hin.
  { apply list_elem_of_fmap. exists (N.to_nat d).
    split; [lia|]. apply elem_of_seq. lia. }
  revert Hin. cbn. rewrite !elem_of_cons, elem_of_nil.
  intros H. repeat destruct H as [->|H]; done.
Qed.

Lemma unicode_escape_value c :
  c < 65536 →
  ((c / 4096 * 16 + c / 256 mod 16) * 16 + c / 16 mod 16) * 16 + c mod 16 = c.
Proof.
  intros Hc.
  pose proof (N.div_mod c 16 ltac:(done)) as H1.
  pose proof (N.div_mod (c / 16) 16 ltac:(done)) as H2.
  pose proof (N.div_mod (c / 16 / 16) 16 ltac:(done)) as H3.
  rewrite !N.Div0.div_div in *.
  change (16 * 16) with 256 in *. change (256 * 16) with 4096 in *.
  lia.
Qed.

Lemma parse_unicode_escape c s :
  c < 65536 →
  parse_string_units (UnicodeEscape c ++ s)
  = cons_unit c (parse_string_units s).
Proof.
  intros Hc. unfold UnicodeEscape. cbn [app parse_string_units].
  change (92 =? 34) with false. change (92 =? 92) with true.
  change (117 =? 117) with true. cbv iota.
  rewrite !hex_value_digit.
  - by rewrite unicode_escape_value.
  - apply N.mod_lt. done.
  - apply N.mod_lt. done.
  - apply N.mod_lt. done.
  - apply N.Div0.div_lt_upper_bound. lia.
Qed.

(** Case analysis on the first [a =? b] of the goal. *)
Ltac case_eqb :=
  match goal with
  | |- context [N.eqb ?a ?b] => destruct (N.eqb_spec a b) as [->|?]
  end.

Lemma parse_quote_unit c s :
  parse_string_units (quote_unit c ++ s) = cons_unit c (parse_string_units s).
Proof.
  unfold quote_unit.
  repeat (case_eqb; [done|]).
  destruct (_ || _ || _) eqn:Hesc.
  - apply parse_unicode_escape.
    unfold is_leading_surrogate, is_trailing_surrogate in Hesc.
    rewrite !orb_true_iff, !andb_true_iff, N.ltb_lt, !N.leb_le in Hesc. lia.
  - cbn [app parse_string_units].
    apply orb_false_iff in Hesc as [[Hlt _]%orb_false_iff _].
    rewrite Hlt.
    destruct (N.eqb_spec c 34); [done|]. by destruct (N.eqb_spec c 92).
Qed.

Lemma parse_surrogate_pair c d s :
  is_leading_surrogate c = true →
  parse_string_units (c :: d :: s)
  = cons_unit c (parse_string_units (d :: s)).
Proof.
  unfold is_leading_surrogate. rewrite andb_true_iff, !N.leb_le.
  intros Hc. cbn [parse_string_units].
  destruct (N.eqb_spec c 34); [lia|]. destruct (N.eqb_spec c 92); [lia|].
  destruct (N.ltb_spec c 32); [lia|done].
Qed.

Lemma parse_trailing_surrogate d s :
  is_trailing_surrogate d = true →
  parse_string_units (d :: s) = cons_unit d (parse_string_units s).
Proof.
  unfold is_trailing_surrogate. rewrite andb_true_iff, !N.leb_le.
  intros Hd. cbn [parse_string_units].
  destruct (N.eqb_spec d 34); [lia|]. destruct (N.eqb_spec d 92); [lia|].
  destruct (N.ltb_spec d 32); [lia|done].
Qed.

(** Reading back a quoted string gives the string, whatever its code
    units. *)
Lemma parse_quote_units s :
  (∀ rest, parse_string_units (quote_units s ++ 34 :: rest) = Parsed (s, rest))
  ∧ ∀ c rest,
      parse_string_units (quote_units (c :: s) ++ 34 :: rest)
      = Parsed (c :: s, rest).
Proof.
  induction s as [|d s [IH1 IH2]].
  - split; [done|]. intros c rest. cbn [quote_units].
    by rewrite parse_quote_unit.
  - split; [apply IH2|]. intros c rest.
    change (quote_units (c :: d :: s))
      with (if is_leading_surrogate c && is_trailing_surrogate d
            then c :: d :: quote_units s
            else quote_unit c ++ quote_units (d :: s)).
    destruct (is_leading_surrogate c) eqn:Hc,
      (is_trailing_surrogate d) eqn:Hd; cbn [andb].
    + cbn [app]. rewrite parse_surrogate_pair, parse_trailing_surrogate by done.
      by rewrite IH1.
    + by rewrite <- app_assoc, parse_quote_unit, IH2.
    + by rewrite <- app_assoc, parse_quote_unit, IH2.
    + by rewrite <- app_assoc, parse_quote_unit, IH2.
Qed.

Lemma parse_QuoteJSONString s rest :
  parse_string_units (quote_units s ++ 34 :: rest) = Parsed (s, rest).
Proof. apply parse_quote_units. Qed.

Lemma QuoteJSONString_cons s :
  QuoteJSONString s = 34 :: quote_units s ++ [34].
Proof. done. Qed.

(** ** Number literals *)

Lemma is_digit_number_char c : is_digit c = true → is_number_char c = true.
Proof. unfold is_number_char. by intros ->. Qed.

Lemma forallb_digits_number_chars s :
  forallb is_digit s = true → forallb is_number_char s = true.
Proof.
  induction s as [|c s IH]; [done|]. cbn.
  intros [Hc Hs]%andb_true_iff. by rewrite is_digit_number_char, IH.
Qed.

Lemma skip_digits_number_chars s :
  forallb is_number_char (skip_digits s) = true →
  forallb is_number_char s = true.
Proof.
  induction s as [|c s IH]; [done|]. cbn.
  destruct (is_digit c) eqn:Hc; [|done].
  intros Hs. by rewrite is_digit_number_char, IH.
Qed.

Lemma nonempty_digits_number_chars s :
  nonempty_digits s = true → forallb is_number_char s = true.
Proof. destruct s; [done|]. apply forallb_digits_number_chars. Qed.

Lemma exponent_ok_number_chars s :
  exponent_ok s = true → forallb is_number_char s = true.
Proof.
  destruct s as [|c s]; [done|]. unfold exponent_ok.
  destruct (_ || _) eqn:Hsign; [|apply nonempty_digits_number_chars].
  intros Hs%nonempty_digits_number_chars. cbn. rewrite Hs, andb_true_r.
  unfold is_number_char. apply orb_true_iff in Hsign as [-> | ->];
    by rewrite ?orb_true_r.
Qed.

Lemma after_fraction_number_chars s :
  after_fraction s = true → forallb is_number_char s = true.
Proof.
  destruct s as [|c s]; [done|]. unfold after_fraction.
  destruct (_ || _) eqn:He; [|done].
  intros Hs%exponent_ok_number_chars. cbn. rewrite Hs, andb_true_r.
  unfold is_number_char. apply orb_true_iff in He as [-> | ->];
    by rewrite ?orb_true_r.
Qed.

Lemma after_int_number_chars s :
  after_int s = true → forallb is_number_char s = true.
Proof.
  destruct s as [|c s]; [done|]. unfold after_int.
  destruct (N.eqb_spec c 46) as [->|_]; [|apply after_fraction_number_chars].
  destruct s as [|d s]; [done|].
  intros [_ Hs%after_fraction_number_chars%skip_digits_number_chars
         ]%andb_true_iff.
  change (forallb is_number_char (46 :: d :: s))
    with (true && forallb is_number_char (d :: s)). by rewrite Hs.
Qed.

Lemma unsigned_number_start s :
  unsigned_number s = true →
  ∃ c s', s = c :: s' ∧ is_digit c = true
          ∧ forallb is_number_char s = true.
Proof.
  destruct s as [|c s]; [done|]. unfold unsigned_number.
  intros H. exists c, s. split; [done|].
  destruct (N.eqb_spec c 48) as [->|_].
  - split; [done|]. apply after_int_number_chars in H. cbn. by rewrite H.
  - destruct (is_digit c) eqn:Hc; [|done]. split; [done|].
    apply after_int_number_chars, skip_digits_number_chars in H.
    cbn [forallb]. by rewrite is_digit_number_char, H.
Qed.

(** A number literal starts with a minus or a digit and consists of number
    characters. *)
Lemma is_json_number_start t :
  is_json_number t = true →
  ∃ c t', t = c :: t' ∧ (c =? 45) || is_digit c = true
          ∧ forallb is_number_char t = true.
Proof.
  destruct t as [|c t]; [done|]. unfold is_json_number.
  intros H. exists c, t. split; [done|].
  destruct (N.eqb_spec c 45) as [->|_].
  - split; [done|].
    apply unsigned_number_start in H as (? & ? & _ & _ & H).
    cbn. by rewrite H.
  - apply unsigned_number_start in H as (? & ? & [= <- <-] & Hc & H).
    by rewrite Hc, orb_true_r.
Qed.

Lemma number_token_app t rest :
  forallb is_number_char t = true →
  ends_number rest →
  number_token (t ++ rest) = (t, rest).
Proof.
  intros Ht Hrest. induction t as [|c t IH]; cbn [app number_token].
  - destruct rest as [|c rest]; [done|]. cbn [number_token].
    unfold ends_number in Hrest. by rewrite Hrest.
  - cbn [forallb] in Ht. apply andb_true_iff in Ht as [-> Ht]. by rewrite IH.
Qed.

(** ** Building an object from its own properties *)

Lemma key_goes_before_precedes k1 k2 :
  key_precedes k1 k2 → key_goes_before k2 k1 = false.
Proof.
  unfold key_precedes, key_goes_before.
  destruct (array_index k1), (array_index k2); try done.
  intros Hlt. apply N.ltb_ge. lia.
Qed.

Lemma key_precedes_ne k1 k2 : key_precedes k1 k2 → k1 ≠ k2.
Proof.
  unfold key_precedes. intros H ->.
  destruct (array_index k2); [lia|done].
Qed.

Lemma add_prop_last k v ps :
  Forall (λ k', key_precedes k' k) ps.*1 →
  add_prop k v ps = ps ++ [(k, v)].
Proof.
  induction ps as [|[k' v'] ps IH]; [done|]. cbn.
  intros [Hk Hps]%Forall_cons. by rewrite key_goes_before_precedes, IH.
Qed.

Lemma CreateDataProperty_last k v ps :
  Forall (λ k', key_precedes k' k) ps.*1 →
  CreateDataProperty ps (k, v) = ps ++ [(k, v)].
Proof.
  intros Hps. unfold CreateDataProperty. cbn [fst snd].
  rewrite bool_decide_eq_false_2; [by apply add_prop_last|].
  intros Hin. rewrite Forall_forall in Hps.
  by apply (key_precedes_ne k k); [apply Hps|].
Qed.

(** Creating the properties of an object in own-key order on a new object
    gives an object with the same properties in the same order. *)
Lemma build_object_own_key_order ps :
  own_key_order ps.*1 → build_object ps = ps.
Proof.
  unfold build_object, own_key_order.
  induction ps as [|[k v] ps IH] using rev_ind; [done|].
  rewrite fmap_app, foldl_snoc. cbn [fmap list_fmap fst].
  intros [Hall [Hps _]]%StronglySorted_app. rewrite IH by done.
  apply CreateDataProperty_last. apply Forall_forall. intros k' Hk'.
  apply Hall; [done|]. apply list_elem_of_singleton. done.
Qed.

(** ** Values *)

Lemma jvalue_induction (P : jvalue → Prop) :
  P JNull →
  (∀ b, P (JBool b)) →
  (∀ x, P (JNum x)) →
  (∀ s, P (JStr s)) →
  (∀ es, Forall P es → P (JArr es)) →
  (∀ ps, Forall (λ kv, P kv.2) ps → P (JObj ps)) →
  ∀ v, P v.
Proof.
  intros Hnull Hbool Hnum Hstr Harr Hobj. fix IH 1. intros [| | | |es|ps].
  - exact Hnull.
  - apply Hbool.
  - apply Hnum.
  - apply Hstr.
  - apply Harr. induction es as [|e es IHes]; constructor; [apply IH|exact IHes].
  - apply Hobj. induction ps as [|[k e] ps IHps]; constructor;
      [apply IH|exact IHps].
Qed.

Lemma json_representable_JArr es :
  json_representable (JArr es) ↔ Forall json_representable es.
Proof.
  induction es as [|e es IH]; [by split|].
  rewrite Forall_cons, <- IH. done.
Qed.

Lemma json_representable_JObj ps :
  json_representable (JObj ps)
  ↔ own_key_order ps.*1 ∧ Forall (λ kv, json_representable kv.2) ps.
Proof.
  cbn [json_representable]. apply and_iff_compat_l.
  induction ps as [|[k e] ps IH]; [by split|].
  rewrite Forall_cons, <- IH. done.
Qed.

Lemma no_negative_zero_JArr es :
  no_negative_zero (JArr es) ↔ Forall no_negative_zero es.
Proof.
  induction es as [|e es IH]; [by split|].
  rewrite Forall_cons, <- IH. done.
Qed.

Lemma no_negative_zero_JObj ps :
  no_negative_zero (JObj ps) ↔ Forall (λ kv, no_negative_zero kv.2) ps.
Proof.
  induction ps as [|[k e] ps IH]; [by split|].
  rewrite Forall_cons, <- IH. done.
Qed.

(** *** The parser on the first character of a value *)

Lemma parse_value_string f s1 :
  parse_value (S f) (34 :: s1)
  = '(str, s2) ← parse_string_units s1; mret (JStr str, s2).
Proof. done. Qed.

Lemma parse_value_array f s1 :
  parse_value (S f) (91 :: s1)
  = match skip_ws s1 with
    | c1 :: s2 =>
        if c1 =? 93 then Parsed (JArr [], s2)
        else '(es, s3) ← parse_elements f s1; mret (JArr es, s3)
    | [] => SyntaxError
    end.
Proof. done. Qed.

Lemma parse_value_object f s1 :
  parse_value (S f) (123 :: s1)
  = match skip_ws s1 with
    | c1 :: s2 =>
        if c1 =? 125 then Parsed (JObj [], s2)
        else '(ms, s3) ← parse_members f s1;
             mret (JObj (build_object ms), s3)
    | [] => SyntaxError
    end.
Proof. done. Qed.

Lemma number_start_codes c :
  (c =? 45) || is_digit c = true → c = 45 ∨ 48 ≤ c ≤ 57.
Proof.
  unfold is_digit. rewrite orb_true_iff, andb_true_iff, N.eqb_eq, !N.leb_le.
  tauto.
Qed.

Lemma parse_value_number f c s1 :
  (c =? 45) || is_digit c = true →
  parse_value (S f) (c :: s1)
  = let '(tok, s2) := number_token (c :: s1) in
    if is_json_number tok
    then Parsed (JNum (number_of_token tok), s2)
    else SyntaxError.
Proof.
  intros Hc. pose proof (number_start_codes c Hc) as Hcodes.
  cbn [parse_value skip_ws].
  assert (is_ws c = false) as ->.
  { unfold is_ws. repeat (case_eqb; [lia|]). done. }
  repeat (case_eqb; [lia|]). by rewrite Hc.
Qed.

Lemma starts_value_skip_ws s : starts_value s → skip_ws s = s.
Proof. destruct s as [|c s]; [done|]. cbn. by intros [-> _]. Qed.

Lemma JSON_stringify_starts_value v rest :
  starts_value (JSON_stringify v ++ rest).
Proof.
  destruct v as [|[]|x| | |]; try done.
  cbn [JSON_stringify]. destruct (is_finite x) eqn:Hx; [|done].
  apply toString_is_json_number, is_json_number_start in Hx
    as (c & t & -> & Hc%number_start_codes & _).
  cbn. unfold is_ws. repeat split; try lia.
  repeat (case_eqb; [lia|]). done.
Qed.

Lemma stringify_JArr es rest :
  JSON_stringify (JArr es) ++ rest
  = 91 :: join_comma (map JSON_stringify es) ++ 93 :: rest.
Proof. cbn [JSON_stringify]. by rewrite <- !app_assoc. Qed.

Lemma stringify_JObj ps rest :
  JSON_stringify (JObj ps) ++ rest
  = 123 :: join_comma (map stringify_member ps) ++ 125 :: rest.
Proof.
  cbn [JSON_stringify]. rewrite <- !app_assoc. cbn [app]. do 3 f_equal.
  apply map_ext. by intros [k v].
Qed.

Lemma stringify_member_app k v rest :
  stringify_member (k, v) ++ rest
  = 34 :: quote_units k ++ 34 :: 58 :: JSON_stringify v ++ rest.
Proof.
  unfold stringify_member, QuoteJSONString. cbn [fst snd].
  by rewrite <- !app_assoc.
Qed.

Lemma bind_Parsed {A B} (a : A) (f : A → parse_result B) :
  (Parsed a ≫= f) = f a.
Proof. done. Qed.

Lemma join_comma_cons x y l :
  join_comma (x :: y :: l) = x ++ 44 :: join_comma (y :: l).
Proof. done. Qed.

Lemma skip_ws_comma s : skip_ws (44 :: s) = 44 :: s.
Proof. done. Qed.
Lemma skip_ws_bracket s : skip_ws (93 :: s) = 93 :: s.
Proof. done. Qed.
Lemma skip_ws_brace s : skip_ws (125 :: s) = 125 :: s.
Proof. done. Qed.
Lemma skip_ws_colon s : skip_ws (58 :: s) = 58 :: s.
Proof. done. Qed.
Lemma skip_ws_quote s : skip_ws (34 :: s) = 34 :: s.
Proof. done. Qed.

(** Steps the parser over a separator that is in plain sight. *)
Ltac parser_step :=
  rewrite ?bind_Parsed; cbv beta iota;
  rewrite ?skip_ws_comma, ?skip_ws_bracket, ?skip_ws_brace, ?skip_ws_colon,
    ?skip_ws_quote;
  cbv beta iota;
  change (44 =? 44) with true; change (93 =? 44) with false;
  change (93 =? 93) with true; change (125 =? 44) with false;
  change (125 =? 125) with true; change (58 =? 58) with true;
  change (34 =? 34) with true;
  cbv beta iota.

Lemma parse_elements_round_trip es : ∀ e fuel rest,
  Forall round_trips (e :: es) →
  (foldr (λ e n, S (value_size e + n)) O (e :: es) ≤ fuel)%nat →
  parse_elements fuel
    (join_comma (map JSON_stringify (e :: es)) ++ 93 :: rest)
  = Parsed (e :: es, rest).
Proof.
  induction es as [|e' es IH]; intros e fuel rest [He Hes]%Forall_cons Hfuel;
    (destruct fuel as [|fuel]; [cbn in Hfuel; lia|]);
    cbn [foldr] in Hfuel; cbn [parse_elements map].
  - cbn [join_comma]. rewrite He by (done || lia). by parser_step.
  - rewrite join_comma_cons, <- app_assoc. cbn [app].
    change (JSON_stringify e' :: map JSON_stringify es)
      with (map JSON_stringify (e' :: es)).
    rewrite He by (done || lia). parser_step.
    rewrite IH; [done|done|]. cbn [foldr]. lia.
Qed.

Lemma parse_members_round_trip ps : ∀ k e fuel rest,
  Forall (λ kv, round_trips kv.2) ((k, e) :: ps) →
  (foldr (λ '(_, e) n, S (value_size e + n)) O ((k, e) :: ps) ≤ fuel)%nat →
  parse_members fuel
    (join_comma (map stringify_member ((k, e) :: ps)) ++ 125 :: rest)
  = Parsed ((k, e) :: ps, rest).
Proof.
  induction ps as [|[k' e'] ps IH];
    intros k e fuel rest [He Hes]%Forall_cons Hfuel;
    (destruct fuel as [|fuel]; [cbn in Hfuel; lia|]);
    cbn [foldr] in Hfuel; cbn [snd] in He; cbn [map].
  - cbn [join_comma]. rewrite stringify_member_app.
    cbn [parse_members]. parser_step.
    rewrite parse_QuoteJSONString. parser_step.
    rewrite He by (done || lia). by parser_step.
  - rewrite join_comma_cons, <- app_assoc, stringify_member_app. cbn [app].
    change (stringify_member (k', e') :: map stringify_member ps)
      with (map stringify_member ((k', e') :: ps)).
    cbn [parse_members]. parser_step.
    rewrite parse_QuoteJSONString. parser_step.
    rewrite He by (done || lia). parser_step.
    rewrite IH; [done|done|]. cbn [foldr]. lia.
Qed.

(** Printing a representable value without negative zero and parsing the
    text gives the value back, within the budget [value_size]. *)
Lemma parse_value_round_trip v :
  json_representable v → no_negative_zero v → round_trips v.
Proof.
  induction v as [|b|x|s|es IH|ps IH] using jvalue_induction; intros Hrep Hnz fuel rest Hfuel Hrest;
    (destruct fuel as [|fuel]; [cbn in Hfuel; lia|]).
  - done.
  - by destruct b.
  - cbn in Hrep, Hnz. cbn [JSON_stringify]. rewrite Hrep.
    destruct (is_json_number_start _ (toString_is_json_number x Hrep))
      as (c & t & Htok & Hc & Hchars).
    rewrite Htok. cbn [app]. rewrite parse_value_number by done.
    change (c :: t ++ rest) with ((c :: t) ++ rest).
    rewrite <- Htok, number_token_app by done.
    by rewrite toString_is_json_number, toString_round_trip.
  - cbn [JSON_stringify]. rewrite QuoteJSONString_cons. cbn [app].
    rewrite <- app_assoc. cbn [app].
    by rewrite parse_value_string, parse_QuoteJSONString.
  - rewrite stringify_JArr, parse_value_array.
    destruct es as [|e es]; [done|].
    apply json_representable_JArr in Hrep.
    apply no_negative_zero_JArr in Hnz.
    pose proof (JSON_stringify_starts_value e
      (match es with
       | [] => []
       | _ :: _ => 44 :: join_comma (map JSON_stringify es)
       end ++ 93 :: rest)) as Hstart.
    assert (join_comma (map JSON_stringify (e :: es)) ++ 93 :: rest
            = JSON_stringify e
                ++ match es with
                   | [] => []
                   | _ :: _ => 44 :: join_comma (map JSON_stringify es)
                   end ++ 93 :: rest) as Htext.
    { destruct es; [done|]. cbn [map]. by rewrite join_comma_cons, <- app_assoc. }
    rewrite <- Htext in Hstart.
    rewrite (starts_value_skip_ws _ Hstart).
    destruct (join_comma _ ++ _) as [|c1 s2] eqn:Hs; [done|].
    destruct Hstart as (_ & Hne & _).
    destruct (N.eqb_spec c1 93); [done|]. rewrite <- Hs.
    rewrite parse_elements_round_trip; [done| |cbn in Hfuel |- *; lia].
    rewrite Forall_forall in IH, Hrep, Hnz. apply Forall_forall.
    intros e0 He0. by apply IH; [|apply Hrep|apply Hnz].
  - rewrite stringify_JObj, parse_value_object.
    destruct ps as [|[k e] ps]; [done|].
    apply json_representable_JObj in Hrep as [Hkeys Hrep].
    apply no_negative_zero_JObj in Hnz.
    assert (starts_value
              (join_comma (map stringify_member ((k, e) :: ps))
                 ++ 125 :: rest)) as Hstart.
    { destruct ps; cbn [map];
        [cbn [join_comma]|rewrite join_comma_cons, <- app_assoc];
        by rewrite stringify_member_app. }
    rewrite (starts_value_skip_ws _ Hstart).
    destruct (join_comma _ ++ _) as [|c1 s2] eqn:Hs; [done|].
    destruct Hstart as (_ & _ & Hne).
    destruct (N.eqb_spec c1 125); [done|]. rewrite <- Hs.
    rewrite parse_members_round_trip.
    + rewrite bind_Parsed. cbv beta iota.
      by rewrite build_object_own_key_order.
    + rewrite Forall_forall in IH, Hrep, Hnz. apply Forall_forall.
      intros kv Hkv. by apply IH; [|apply Hrep|apply Hnz].
    + cbn in Hfuel |- *. lia.
Qed.

(** ** The budget of [JSON_parse] *)

Lemma length_QuoteJSONString s : (2 ≤ length (QuoteJSONString s))%nat.
Proof. unfold QuoteJSONString. rewrite !length_app. cbn. lia. Qed.

Lemma value_size_length v :
  (value_size v ≤ length (JSON_stringify v))%nat.
Proof.
  induction v as [|b|x|s|es IH|ps IH] using jvalue_induction.
  - cbn. lia.
  - destruct b; cbn; lia.
  - cbn [JSON_stringify value_size].
    destruct (is_finite x) eqn:Hx; [|cbn; lia].
    apply toString_is_json_number, is_json_number_start in Hx
      as (c & t & -> & _). cbn. lia.
  - cbn [JSON_stringify value_size]. pose proof (length_QuoteJSONString s). lia.
  - cbn [JSON_stringify value_size]. rewrite !length_app. cbn [length].
    enough (foldr (λ e n, S (value_size e + n)) O es
            ≤ S (length (join_comma (map JSON_stringify es))))%nat by lia.
    induction IH as [|e es He _ IHes]; [cbn; lia|]. cbn [foldr map].
    destruct es as [|e' es]; [cbn in *; lia|]. cbn [map] in *.
    rewrite join_comma_cons, length_app. cbn [length]. lia.
  - rewrite <- (app_nil_r (JSON_stringify (JObj ps))), stringify_JObj.
    cbn [value_size length]. rewrite length_app. cbn [length].
    enough (foldr (λ '(_, e) n, S (value_size e + n)) O ps
            ≤ S (length (join_comma (map stringify_member ps))))%nat by lia.
    induction IH as [|[k e] ps He _ IHps]; [cbn; lia|]. cbn [foldr map].
    assert (value_size e + 3 ≤ length (stringify_member (k, e)))%nat.
    { unfold stringify_member. rewrite !length_app. cbn [fst snd length] in *.
      pose proof (length_QuoteJSONString k). lia. }
    destruct ps as [|[k' e'] ps].
    + cbn [foldr join_comma map] in *. lia.
    + cbn [map] in *. rewrite join_comma_cons, length_app in *.
      cbn [length] in *. lia.
Qed.

Lemma JSON_parse_stringify v :
  json_representable v → no_negative_zero v →
  JSON_parse (JSON_stringify v) = Parsed v.
Proof.
  intros Hrep Hnz. unfold JSON_parse.
  pose proof (parse_value_round_trip v Hrep Hnz
                (2 * length (JSON_stringify v) + 2)%nat []) as Hparse.
  rewrite app_nil_r in Hparse. rewrite Hparse; [done| |done].
  pose proof (value_size_length v). lia.
Qed.

(** ** The round trip of the source's two functions *)

(** C10, as the code has it: for every plain object whose values are JSON
    values (null, booleans, finite numbers, strings, arrays and plain objects
    of such values) none of which is negative zero, and every prototype
    (an object or [null]), [fromJSON(proto, getJSON(obj))] returns an object
    with the own enumerable properties of [obj], in the same order, and with
    prototype [proto]. *)
Theorem fromJSON_getJSON_round_trip proto ps :
  json_representable (JObj ps) →
  no_negative_zero (JObj ps) →
  fromJSON proto (getJSON (JObj ps)) = Parsed (JsObject proto ps).
Proof.
  intros Hrep Hnz. unfold fromJSON, getJSON.
  rewrite JSON_parse_stringify by done. rewrite bind_Parsed.
  apply json_representable_JObj in Hrep as [Hkeys _].
  cbn [spread]. by rewrite build_object_own_key_order.
Qed.

(** ** The budget of [JSON_parse] suffices for every text *)

Lemma skip_ws_length s : (length (skip_ws s) ≤ length s)%nat.
Proof.
  induction s as [|c s IH]; [done|]. cbn. destruct (is_ws c); cbn; lia.
Qed.

Lemma skip_ws_cons s c s' :
  skip_ws s = c :: s' → (length s' < length s)%nat.
Proof. intros H. pose proof (skip_ws_length s). rewrite H in *. cbn in *. lia. Qed.

Lemma cons_unit_rest u r (n : nat) :
  match r with
  | Parsed (_, rest) => (length rest < n)%nat
  | SyntaxError => True
  | OutOfFuel => False
  end →
  match cons_unit u r with
  | Parsed (_, rest) => (length rest < n)%nat
  | SyntaxError => True
  | OutOfFuel => False
  end.
Proof. by destruct r as [[? ?]| |]. Qed.

(** A string literal never exhausts a budget and consumes its text. *)
Lemma parse_string_units_rest n : ∀ s,
  (length s ≤ n)%nat →
  match parse_string_units s with
  | Parsed (_, rest) => (length rest < length s)%nat
  | SyntaxError => True
  | OutOfFuel => False
  end.
Proof.
  induction n as [|n IH]; intros [|c s1] Hn; try done; cbn [length] in Hn;
    [lia|].
  cbn [parse_string_units]. destruct (c =? 34); [cbn; lia|].
  assert (∀ s u, (length s ≤ length s1)%nat →
    match cons_unit u (parse_string_units s) with
    | Parsed (_, rest) => (length rest < length (c :: s1))%nat
    | SyntaxError => True
    | OutOfFuel => False
    end) as Hrec.
  { intros s u Hs. apply cons_unit_rest.
    specialize (IH s ltac:(lia)).
    destruct (parse_string_units s) as [[? ?]| |]; cbn [length]; try done. lia. }
  destruct (c =? 92).
  - destruct s1 as [|e s2]; [done|]. destruct (e =? 117).
    + destruct s2 as [|h3 [|h2 [|h1 [|h0 s3]]]]; try done.
      destruct (hex_value h3), (hex_value h2), (hex_value h1), (hex_value h0);
        try done.
      apply Hrec. cbn. lia.
    + destruct (simple_escape e); [|done]. apply Hrec. cbn. lia.
  - destruct (c <? 32); [done|]. by apply Hrec.
Qed.

Lemma expect_rest lit : ∀ s v,
  match expect lit s v with
  | Parsed (_, rest) => (length rest ≤ length s)%nat
  | SyntaxError => True
  | OutOfFuel => False
  end.
Proof.
  induction lit as [|l lit IH]; intros [|c s] v; cbn [expect]; try done.
  destruct (c =? l); [|done]. specialize (IH s v).
  destruct (expect lit s v) as [[? ?]| |]; cbn [length]; try done. lia.
Qed.

Lemma number_token_rest s :
  (length (number_token s).2 ≤ length s)%nat.
Proof.
  induction s as [|c s IH]; [done|]. cbn [number_token].
  destruct (is_number_char c); [|done].
  destruct (number_token s) as [t rest]. cbn [snd length] in *. lia.
Qed.

Lemma number_start_number_char c :
  (c =? 45) || is_digit c = true → is_number_char c = true.
Proof.
  unfold is_number_char. intros [->%N.eqb_eq| ->]%orb_true_iff; done.
Qed.

Lemma parse_within_budget fuel :
  (∀ s, within_budget (parse_value fuel s) s (fuel < 2 * length s + 1)%nat)
  ∧ (∀ s, within_budget (parse_elements fuel s) s
            (fuel < 2 * length s + 2)%nat)
  ∧ (∀ s, within_budget (parse_members fuel s) s
            (fuel < 2 * length s + 2)%nat).
Proof.
  unfold within_budget.
  induction fuel as [|f (IHv & IHe & IHm)]; [repeat split; intros; cbn; lia|].
  split; [|split]; intros s.
  - cbn [parse_value].
    destruct (skip_ws s) as [|c s1] eqn:Hws; [done|]. apply skip_ws_cons in Hws.
    destruct (c =? 110).
    { pose proof (expect_rest (units "ull") s1 JNull).
      destruct (expect _ _ _) as [[? ?]| |]; [lia|done..]. }
    destruct (c =? 116).
    { pose proof (expect_rest (units "rue") s1 (JBool true)).
      destruct (expect _ _ _) as [[? ?]| |]; [lia|done..]. }
    destruct (c =? 102).
    { pose proof (expect_rest (units "alse") s1 (JBool false)).
      destruct (expect _ _ _) as [[? ?]| |]; [lia|done..]. }
    destruct (c =? 34).
    { pose proof (parse_string_units_rest _ s1 (le_n _)).
      destruct (parse_string_units s1) as [[? ?]| |]; cbn; [lia|done..]. }
    destruct (c =? 91).
    { destruct (skip_ws s1) as [|c1 s2] eqn:Hws1; [done|].
      apply skip_ws_cons in Hws1. destruct (c1 =? 93); [lia|].
      specialize (IHe s1).
      destruct (parse_elements f s1) as [[? ?]| |]; cbn; [lia|done|lia]. }
    destruct (c =? 123).
    { destruct (skip_ws s1) as [|c1 s2] eqn:Hws1; [done|].
      apply skip_ws_cons in Hws1. destruct (c1 =? 125); [lia|].
      specialize (IHm s1).
      destruct (parse_members f s1) as [[? ?]| |]; cbn; [lia|done|lia]. }
    destruct (_ || _) eqn:Hc; [|done].
    cbn [number_token]. rewrite (number_start_number_char c Hc).
    pose proof (number_token_rest s1).
    destruct (number_token s1) as [t s2]. cbn [snd] in *.
    destruct (is_json_number _); [lia|done].
  - cbn [parse_elements]. specialize (IHv s).
    destruct (parse_value f s) as [[v s1]| |]; cbn; [|done|lia].
    destruct (skip_ws s1) as [|c s2] eqn:Hws; [done|]. apply skip_ws_cons in Hws.
    destruct (c =? 44).
    { specialize (IHe s2).
      destruct (parse_elements f s2) as [[? ?]| |]; cbn; [lia|done|lia]. }
    destruct (c =? 93); [lia|done].
  - cbn [parse_members].
    destruct (skip_ws s) as [|c s1] eqn:Hws; [done|]. apply skip_ws_cons in Hws.
    destruct (c =? 34); [|done].
    pose proof (parse_string_units_rest _ s1 (le_n _)).
    destruct (parse_string_units s1) as [[k s2]| |]; cbn; [|done..].
    destruct (skip_ws s2) as [|c2 s3] eqn:Hws2; [done|].
    apply skip_ws_cons in Hws2. destruct (c2 =? 58); [|done].
    specialize (IHv s3).
    destruct (parse_value f s3) as [[v s4]| |]; cbn; [|done|lia].
    destruct (skip_ws s4) as [|c4 s5] eqn:Hws4; [done|].
    apply skip_ws_cons in Hws4. destruct (c4 =? 44).
    { specialize (IHm s5).
      destruct (parse_members f s5) as [[? ?]| |]; cbn; [lia|done|lia]. }
    destruct (c4 =? 125); [lia|done].
Qed.

(** [JSON_parse] returns a value or throws: its budget is never used up. *)
Lemma JSON_parse_not_OutOfFuel text : JSON_parse text ≠ OutOfFuel.
Proof.
  unfold JSON_parse.
  destruct (parse_within_budget (2 * length text + 2)) as (Hv & _).
  specialize (Hv text). unfold within_budget in Hv.
  destruct (parse_value _ text) as [[v rest]| |]; cbn; [|done|lia].
  by destruct (skip_ws rest).
Qed.

(** ** Negative zero *)

Section negative_zero.
Context `{!EqDecision number} (pos_zero : number).
Context (Hfinite_neg : is_finite neg_zero = true).
Context (Hfinite_pos : is_finite pos_zero = true).
Context (Hdistinct : pos_zero ≠ neg_zero).
Context (Hprint : Number_toString neg_zero = Number_toString pos_zero).

Lemma stringify_without_negative_zero v :
  JSON_stringify (without_negative_zero pos_zero v) = JSON_stringify v.
Proof.
  induction v as [|b|x|s|es IH|ps IH] using jvalue_induction; try done.
  - cbn [without_negative_zero]. destruct (decide (x = neg_zero)) as [->|]; [|done].
    cbn [JSON_stringify]. by rewrite Hfinite_neg, Hfinite_pos, Hprint.
  - cbn [without_negative_zero JSON_stringify]. do 3 f_equal.
    rewrite map_map. apply map_ext_in. intros e He%list_elem_of_In.
    rewrite Forall_forall in IH. by apply IH.
  - cbn [without_negative_zero JSON_stringify]. do 3 f_equal.
    rewrite map_map. apply map_ext_in. intros [k e] He%list_elem_of_In.
    rewrite Forall_forall in IH. specialize (IH _ He). cbn [snd] in IH.
    by rewrite IH.
Qed.

Lemma without_negative_zero_keys (ps : list (jsstring * jvalue)) :
  (map (λ '(k, e), (k, without_negative_zero pos_zero e)) ps).*1 = ps.*1.
Proof. induction ps as [|[k e] ps IH]; [done|]. cbn. by rewrite IH. Qed.

Lemma without_negative_zero_representable v :
  json_representable v →
  json_representable (without_negative_zero pos_zero v)
  ∧ no_negative_zero (without_negative_zero pos_zero v).
Proof.
  induction v as [|b|x|s|es IH|ps IH] using jvalue_induction; try done.
  - cbn [without_negative_zero]. by destruct (decide (x = neg_zero)).
  - intros Hrep%json_representable_JArr. cbn [without_negative_zero].
    rewrite json_representable_JArr, no_negative_zero_JArr, !Forall_forall.
    rewrite Forall_forall in IH, Hrep.
    split; intros e' (e & <- & He)%list_elem_of_In%in_map_iff;
      apply list_elem_of_In in He; by apply IH; [|apply Hrep].
  - intros [Hkeys Hrep]%json_representable_JObj. cbn [without_negative_zero].
    rewrite json_representable_JObj, no_negative_zero_JObj, !Forall_forall,
      without_negative_zero_keys.
    rewrite Forall_forall in IH, Hrep.
    split; [split; [done|]|];
      intros kv' ([k e] & <- & He%list_elem_of_In)%list_elem_of_In%in_map_iff;
      by apply (IH (k, e)); [|apply (Hrep (k, e))].
Qed.

(** X11: what the round trip does to negative zero.  For every plain object
    of JSON values and every prototype, [fromJSON(proto, getJSON(obj))]
    returns the object with every negative zero in it replaced by positive
    zero, and with prototype [proto]. *)
Theorem fromJSON_getJSON_negative_zero proto ps :
  json_representable (JObj ps) →
  fromJSON proto (getJSON (JObj ps))
  = Parsed (JsObject proto
              (map (λ '(k, e), (k, without_negative_zero pos_zero e)) ps)).
Proof.
  intros Hrep.
  destruct (without_negative_zero_representable (JObj ps) Hrep) as [Hrep' Hnz'].
  unfold getJSON. rewrite <- (stringify_without_negative_zero (JObj ps)).
  by apply fromJSON_getJSON_round_trip.
Qed.

End negative_zero.

End json_facts.

(** The sample satisfies what is stated of [Number::toString]. *)
Lemma sample_laws : @NumberLaws sample_numbers.
Proof.
  split.
  - by intros [].
  - by intros [].
Qed.

Lemma sample_props_representable :
  json_representable (JObj sample_props) ∧ no_negative_zero (JObj sample_props).
Proof.
  split.
  - split.
    + repeat (constructor; [repeat constructor; by vm_compute|]). constructor.
    + cbn. repeat split; try done; repeat constructor.
  - cbn. repeat split; done.
Qed.

Lemma fromJSON_getJSON_round_trip_witness :
  json_representable (JObj sample_props)
  ∧ no_negative_zero (JObj sample_props)
  ∧ fromJSON (Some 3%nat) (getJSON (JObj sample_props))
    = Parsed (JsObject (Some 3%nat) sample_props).
Proof.
  split; [apply sample_props_representable|].
  split; [apply sample_props_representable|].
  apply (@fromJSON_getJSON_round_trip sample_numbers sample_laws
           (Some 3%nat) sample_props);
    apply sample_props_representable.
Defined.

(** C10 as stated fails: [{ a: -0 }] is a plain object with one finite
    number, [getJSON] prints its number as [0], and [fromJSON] returns an
    object whose [a] is positive zero. *)
Lemma fromJSON_negative_zero_counterexample :
  json_representable obj_negative_zero
  ∧ getJSON obj_negative_zero = [123; 34; 97; 34; 58; 48; 125]%N
  ∧ fromJSON (Some 0%nat) (getJSON obj_negative_zero)
    = Parsed (JsObject (Some 0%nat) [(units "a", sample_num PosZero)])
  ∧ fromJSON (Some 0%nat) (getJSON obj_negative_zero)
    ≠ Parsed (JsObject (Some 0%nat) [(units "a", sample_num NegZero)]).
Proof.
  split; [|split; [|split]].
  - split; [repeat constructor|by cbn].
  - reflexivity.
  - reflexivity.
  - discriminate.
Qed.

Lemma fromJSON_getJSON_negative_zero_witness :
  json_representable obj_negative_zero
  ∧ fromJSON (Some 0%nat) (getJSON obj_negative_zero)
    = Parsed (JsObject (Some 0%nat) [(units "a", sample_num PosZero)]).
Proof.
  split; [split; [repeat constructor|by cbn]|].
  apply (@fromJSON_getJSON_negative_zero sample_numbers sample_laws _ PosZero
           eq_refl eq_refl ltac:(discriminate) eq_refl (Some 0%nat)
           [(units "a", sample_num NegZero)]).
  split; [repeat constructor|by cbn].
Defined.
